(** * Referral backend (index.js): a shallow embedding of the HTTP handlers

    The backend is an Express application whose handlers talk to a
    Firebase Realtime Database.  Each handler is an [async] function: it
    runs synchronously up to an [await], the awaited database operation is
    one atomic round trip, and other requests may run in between two
    awaits.  The handlers are embedded as programs over the database
    operations they await ([prog]); a program is run either to completion
    against the database ([run], one request at a time) or interleaved
    with other in-flight requests, one awaited operation per step
    ([interleave]).

    Stored numbers (coins, timestamps, award amounts) are integers.  The
    code holds them as IEEE doubles, so a sum is the exact sum rounded to
    the nearest double ([js_add]): the exact sum below 2^53.  A text is a
    sequence of 8-bit code units, one [ascii] each; an absent child is
    [None].  JavaScript truthiness is kept: [0], the empty string and an
    absent child are falsy.

    [db.ref] refuses a path that holds a character the database forbids
    ([valid_path]); where the call is inside the handler's [try] the
    [catch] answers 500, where it is before the [try] no answer is sent.
    The children of [/users] are stored under keys the database admits
    ([valid_key]), and a query orders children of equal value by key as
    the database does ([key_le]): keys that read as 32-bit integers
    first, by value, then the other keys as texts.  A uid is taken to be
    free of [/]: with one, [/users/<uid>] would address a node inside
    another account's record.  The string methods [toUpperCase] and
    [slice] and the SHA-1 digest are parameters ([StringLib]);
    [ascii_conforming] says what the two methods do on ASCII text.

    The embedding follows index.js; the repository's second copy of the
    file has the same handlers without the [try]/[catch] wrappers.  A
    handler receives the verified [req.user.uid]; the [verifyToken] and
    [requireAdmin] middlewares that run before it are embedded with the
    token verifier as a parameter.  PATCH /admin/edit writes caller-chosen
    children, which the typed records here cannot hold, and is not part of
    the embedding. *)

From Stdlib Require Import ZArith String Ascii.
From stdpp Require Import base option list gmap strings sorting pretty.

Local Open Scope Z_scope.

(** ** Data model *)

(** A record under [/users/<uid>]. *)
Module User.
Record t := mk {
  referralCode : option string;
  coins : option Z;
  referredBy : option string;
  referralAppliedAt : option Z;
  updatedAt : option Z;
  displayName : option string
}.
(** The JavaScript object [{}]. *)
Definition empty : t := mk None None None None None None.

Definition set_referralCode (v : string) (u : t) : t :=
  mk (Some v) (coins u) (referredBy u) (referralAppliedAt u) (updatedAt u) (displayName u).
Definition set_coins (v : Z) (u : t) : t :=
  mk (referralCode u) (Some v) (referredBy u) (referralAppliedAt u) (updatedAt u) (displayName u).
Definition set_referredBy (v : string) (u : t) : t :=
  mk (referralCode u) (coins u) (Some v) (referralAppliedAt u) (updatedAt u) (displayName u).
Definition set_referralAppliedAt (v : Z) (u : t) : t :=
  mk (referralCode u) (coins u) (referredBy u) (Some v) (updatedAt u) (displayName u).
Definition set_updatedAt (v : Z) (u : t) : t :=
  mk (referralCode u) (coins u) (referredBy u) (referralAppliedAt u) (Some v) (displayName u).
End User.

(** An audit record under [/referrals/<id>]. *)
Module Referral.
Record t := mk {
  id : string;
  referrerUid : string;
  referredUid : string;
  referrerCode : string;
  referredCode : option string;
  awarded : bool;
  referrerCoins : Z;
  referredCoins : Z;
  createdAt : Z
}.
End Referral.

(** The record under [/admin/settings/referral]; also the shape of the
    [updates] object of POST /admin/settings/referral. *)
Module Settings.
Record t := mk {
  referrerCoins : option Z;
  referredCoins : option Z;
  requireCompleteProfile : option bool
}.
Definition empty : t := mk None None None.

Definition set_referrerCoins (v : Z) (s : t) : t :=
  mk (Some v) (referredCoins s) (requireCompleteProfile s).
Definition set_referredCoins (v : Z) (s : t) : t :=
  mk (referrerCoins s) (Some v) (requireCompleteProfile s).
Definition set_requireCompleteProfile (v : bool) (s : t) : t :=
  mk (referrerCoins s) (referredCoins s) (Some v).
End Settings.

(** The database: the three subtrees the handlers touch.  [settings] is
    [None] while [/admin/settings/referral] does not exist. *)
Record Db := mkDb {
  users : gmap string User.t;
  referrals : gmap string Referral.t;
  settings : option Settings.t
}.

(** [process.env]: the two optional award defaults.  [Some n] stands for a
    variable holding the numeral of [n] (a non-empty string, hence truthy
    whatever [n] is); [None] for an unset or empty variable. *)
Record Env := mkEnv {
  DEFAULT_REFERRER_COINS : option Z;
  DEFAULT_REFERRED_COINS : option Z
}.

(** ** JavaScript truthiness and coercions *)

Definition truthy_str (v : option string) : bool :=
  match v with
  | Some s => negb (String.eqb s "")
  | None => false
  end.

Definition truthy_num (v : option Z) : bool :=
  match v with
  | Some n => negb (n =? 0)
  | None => false
  end.

(** [v || d] on an optional number. *)
Definition num_or (v : option Z) (d : Z) : Z :=
  match v with
  | Some n => if n =? 0 then d else n
  | None => d
  end.

(** [Number(configured || process.env.X || fallback)]. *)
Definition award (configured env_default : option Z) (fallback : Z) : Z :=
  if truthy_num configured then default 0 configured
  else match env_default with
       | Some n => n
       | None => fallback
       end.

(** The numbers [Number(...)] can yield from a query-string parameter. *)
Inductive jsnum :=
  | JNaN
  | JInt (z : Z)
  | JFrac (fl : Z)   (* a finite non-integer whose floor is [fl] *)
  | JPosInf
  | JNegInf.

(** [Math.min(200, x)]. *)
Definition Math_min_200 (x : jsnum) : jsnum :=
  match x with
  | JNaN => JNaN
  | JInt z => JInt (Z.min 200 z)
  | JFrac fl => if 200 <=? fl then JInt 200 else JFrac fl
  | JPosInf => JInt 200
  | JNegInf => JNegInf
  end.

(** ** Responses *)

Inductive Body :=
  | BError (error : string)
  | BReferralCode (referralCode : string)
  | BReferralInfo (uid : string) (displayName : option string)
  | BAwarded (referrerUid : string) (referrerCoins referredCoins : Z)
  | BData (data : gmap string Referral.t)
  | BSaved (saved : Settings.t)
  | BNone.

Record Response := mkResponse { status : Z; body : Body }.

(** [res.json(b)] and [res.status(c).json({ error: msg })]. *)
Definition json (b : Body) : Response := mkResponse 200 b.
Definition fail (c : Z) (msg : string) : Response := mkResponse c (BError msg).

(** The outcome of a handler whose promise rejects outside any [try]:
    nothing is sent to the client.  Recorded with status 0 and no body. *)
Definition unanswered : Response := mkResponse 0 BNone.

(** ** Numbers as doubles *)

(** The integer nearest to [z] that a double can hold: [z] itself below
    2^53 in magnitude, else [z] rounded to 53 significant bits, ties to
    the even neighbour.  Magnitudes stay below the largest finite
    double. *)
Definition round_double (z : Z) : Z :=
  let a := Z.abs z in
  if a <? 2 ^ 53 then z
  else
    let e := Z.log2 a - 52 in
    let q := a / 2 ^ e in
    let r := a mod 2 ^ e in
    let h := 2 ^ (e - 1) in
    let q' := if r <? h then q
              else if h <? r then q + 1
              else if Z.even q then q else q + 1 in
    Z.sgn z * (q' * 2 ^ e).

(** [x + y] on numbers. *)
Definition js_add (x y : Z) : Z := round_double (x + y).
Global Arguments round_double : simpl never.
Global Arguments js_add : simpl never.

(** ** Database keys *)

(** A character [db.ref] refuses in a path: a control character or one
    of [. # $ [ ]]. *)
Definition invalid_path_char (c : ascii) : bool :=
  let n := nat_of_ascii c in
  (n <? 32)%nat || (n =? 127)%nat
  || Ascii.eqb c "."%char || Ascii.eqb c "#"%char || Ascii.eqb c "$"%char
  || Ascii.eqb c "["%char || Ascii.eqb c "]"%char.

(** [db.ref(`/users/${uid}`)] does not throw. *)
Fixpoint valid_path (uid : string) : bool :=
  match uid with
  | EmptyString => true
  | String c s => negb (invalid_path_char c) && valid_path s
  end.

Fixpoint no_slash (s : string) : bool :=
  match s with
  | EmptyString => true
  | String c s' => negb (Ascii.eqb c "/"%char) && no_slash s'
  end.

(** A text that can be the key of a child: non-empty, accepted in a
    path, and without [/]. *)
Definition valid_key (k : string) : bool :=
  negb (String.eqb k "") && valid_path k && no_slash k.

Definition is_digit (c : ascii) : bool :=
  let n := nat_of_ascii c in (48 <=? n)%nat && (n <=? 57)%nat.

Fixpoint all_digits (s : string) : bool :=
  match s with
  | EmptyString => true
  | String c s' => is_digit c && all_digits s'
  end.

Fixpoint strip_zeros (s : string) : string :=
  match s with
  | EmptyString => EmptyString
  | String c s' => if Ascii.eqb c "0"%char then strip_zeros s' else s
  end.

Fixpoint digits_value (acc : Z) (s : string) : Z :=
  match s with
  | EmptyString => acc
  | String c s' => digits_value (10 * acc + Z.of_nat (nat_of_ascii c - 48)) s'
  end.

(** The database's reading of a key as a 32-bit integer: an optional
    minus sign, any number of zeros, then one to ten digits, in range. *)
Definition tryParseInt (k : string) : option Z :=
  let neg := match k with
             | String c _ => Ascii.eqb c "-"%char
             | EmptyString => false
             end in
  let body := match k with
              | String c r => if Ascii.eqb c "-"%char then r else k
              | EmptyString => k
              end in
  if all_digits body && negb (String.eqb body "")
     && (String.length (strip_zeros body) <=? 10)%nat
  then
    let v := if neg then - digits_value 0 body else digits_value 0 body in
    if (-2147483648 <=? v) && (v <=? 2147483647) then Some v else None
  else None.

(** The order of children by key: keys that read as integers first, by
    value (then the shorter first), then the other keys as texts. *)
Definition key_leb (a b : string) : bool :=
  match tryParseInt a, tryParseInt b with
  | Some x, Some y =>
      (x <? y)
      || ((x =? y)
          && ((String.length a <? String.length b)%nat
              || ((String.length a =? String.length b)%nat && String.leb a b)))
  | Some _, None => true
  | None, Some _ => false
  | None, None => String.leb a b
  end.

Definition key_le (a b : string) : Prop := key_leb a b.

Global Instance key_le_dec : RelDecision key_le.
Proof. intros a b. unfold key_le. apply _. Defined.

(** ** Database operations *)

(** One child assignment of an [update(...)] call. *)
Inductive Write :=
  | SetUserReferralCode (uid : string) (v : string)
  | SetUserReferredBy (uid : string) (v : string)
  | SetUserReferralAppliedAt (uid : string) (v : Z)
  | SetUserCoins (uid : string) (v : Z)
  | SetUserUpdatedAt (uid : string) (v : Z)
  | SetReferral (id : string) (r : Referral.t)
  | SetSettingsReferrerCoins (v : Z)
  | SetSettingsReferredCoins (v : Z)
  | SetSettingsRequireCompleteProfile (v : bool).

Definition upd_user (uid : string) (f : User.t → User.t) (db : Db) : Db :=
  mkDb (<[uid := f (default User.empty (users db !! uid))]> (users db))
       (referrals db) (settings db).

Definition upd_settings (f : Settings.t → Settings.t) (db : Db) : Db :=
  mkDb (users db) (referrals db) (Some (f (default Settings.empty (settings db)))).

Definition apply_write (db : Db) (w : Write) : Db :=
  match w with
  | SetUserReferralCode uid v => upd_user uid (User.set_referralCode v) db
  | SetUserReferredBy uid v => upd_user uid (User.set_referredBy v) db
  | SetUserReferralAppliedAt uid v => upd_user uid (User.set_referralAppliedAt v) db
  | SetUserCoins uid v => upd_user uid (User.set_coins v) db
  | SetUserUpdatedAt uid v => upd_user uid (User.set_updatedAt v) db
  | SetReferral id r => mkDb (users db) (<[id := r]> (referrals db)) (settings db)
  | SetSettingsReferrerCoins v => upd_settings (Settings.set_referrerCoins v) db
  | SetSettingsReferredCoins v => upd_settings (Settings.set_referredCoins v) db
  | SetSettingsRequireCompleteProfile v =>
      upd_settings (Settings.set_requireCompleteProfile v) db
  end.

(** [ref.update(updates)]: all child assignments land in one atomic write;
    a later assignment to the same path replaces an earlier one. *)
Definition apply_updates (ws : list Write) (db : Db) : Db :=
  foldl apply_write db ws.

(** [orderByChild('referralCode').equalTo(code).limitToFirst(1)]: among the
    children of [/users] holding [code], the one whose key comes first.
    A child of [/users] has a valid key. *)
Definition holds_code (code : string) (e : string * User.t) : bool :=
  valid_key e.1
  && match User.referralCode e.2 with
     | Some c => String.eqb c code
     | None => false
     end.

Definition first_key (e : string * User.t) (acc : option (string * User.t))
  : option (string * User.t) :=
  match acc with
  | None => Some e
  | Some e' => if key_leb e.1 e'.1 then Some e else Some e'
  end.

Definition query_by_code (code : string) (db : Db) : option (string * User.t) :=
  foldr first_key None (List.filter (holds_code code) (map_to_list (users db))).

(** [orderByChild('createdAt')]: ascending by [createdAt], ties by key. *)
Definition created_le (x y : string * Referral.t) : Prop :=
  Referral.createdAt x.2 < Referral.createdAt y.2
  ∨ (Referral.createdAt x.2 = Referral.createdAt y.2 ∧ key_le x.1 y.1).

Global Instance created_le_dec : RelDecision created_le.
Proof. intros x y. unfold created_le. apply _. Defined.

Definition orderByChild_createdAt (m : gmap string Referral.t)
  : list (string * Referral.t) :=
  merge_sort created_le (map_to_list m).

(** [limitToLast(n)] on an ordered result. *)
Definition limitToLast {A} (n : nat) (l : list A) : list A :=
  drop (length l - n) l.

Definition query_recent (n : nat) (db : Db) : list (string * Referral.t) :=
  limitToLast n (orderByChild_createdAt (referrals db)).

(** ** Handler programs *)

(** A handler is a tree of awaited database operations ending in the
    response it sends. *)
Inductive prog (A : Type) : Type :=
  | Ret (a : A)
  | OnceUser (uid : string) (k : option User.t → prog A)
  | OnceByCode (code : string) (k : option (string * User.t) → prog A)
  | OnceSettings (k : option Settings.t → prog A)
  | OnceRecent (n : nat) (k : list (string * Referral.t) → prog A)
  | Update (ws : list Write) (k : prog A).

Arguments Ret {A} a.
Arguments OnceUser {A} uid k.
Arguments OnceByCode {A} code k.
Arguments OnceSettings {A} k.
Arguments OnceRecent {A} n k.
Arguments Update {A} ws k.

Fixpoint prog_bind {A B} (f : A → prog B) (p : prog A) : prog B :=
  match p with
  | Ret a => f a
  | OnceUser uid k => OnceUser uid (λ x, prog_bind f (k x))
  | OnceByCode code k => OnceByCode code (λ x, prog_bind f (k x))
  | OnceSettings k => OnceSettings (λ x, prog_bind f (k x))
  | OnceRecent n k => OnceRecent n (λ x, prog_bind f (k x))
  | Update ws k => Update ws (prog_bind f k)
  end.

Global Instance prog_ret : MRet prog := @Ret.
Global Instance prog_mbind : MBind prog := @prog_bind.

Definition onceUser (uid : string) : prog (option User.t) := OnceUser uid Ret.
Definition onceByCode (code : string) : prog (option (string * User.t)) :=
  OnceByCode code Ret.
Definition onceSettings : prog (option Settings.t) := OnceSettings Ret.
Definition onceRecent (n : nat) : prog (list (string * Referral.t)) :=
  OnceRecent n Ret.
Definition update (ws : list Write) : prog unit := Update ws (Ret tt).

(** One awaited operation against the database. *)
Definition step {A} (db : Db) (p : prog A) : Db * prog A :=
  match p with
  | Ret a => (db, Ret a)
  | OnceUser uid k => (db, k (users db !! uid))
  | OnceByCode code k => (db, k (query_by_code code db))
  | OnceSettings k => (db, k (settings db))
  | OnceRecent n k => (db, k (query_recent n db))
  | Update ws k => (apply_updates ws db, k)
  end.

(** A request handled with no other request in flight. *)
Fixpoint run {A} (db : Db) (p : prog A) : Db * A :=
  match p with
  | Ret a => (db, a)
  | OnceUser uid k => run db (k (users db !! uid))
  | OnceByCode code k => run db (k (query_by_code code db))
  | OnceSettings k => run db (k (settings db))
  | OnceRecent n k => run db (k (query_recent n db))
  | Update ws k => run (apply_updates ws db) k
  end.

(** The [update] calls a request issues when handled alone, in order. *)
Fixpoint writes {A} (db : Db) (p : prog A) : list (list Write) :=
  match p with
  | Ret _ => []
  | OnceUser uid k => writes db (k (users db !! uid))
  | OnceByCode code k => writes db (k (query_by_code code db))
  | OnceSettings k => writes db (k (settings db))
  | OnceRecent n k => writes db (k (query_recent n db))
  | Update ws k => ws :: writes (apply_updates ws db) k
  end.

(** In-flight requests advanced under a schedule: entry [i] of the
    schedule lets request [i] perform its next awaited operation. *)
Fixpoint interleave {A} (sched : list nat) (db : Db) (ps : list (prog A))
  : Db * list (prog A) :=
  match sched with
  | [] => (db, ps)
  | i :: sched' =>
      match ps !! i with
      | Some p => let '(db', p') := step db p in
                  interleave sched' db' (<[i := p']> ps)
      | None => interleave sched' db ps
      end
  end.

(** The response of a finished request. *)
Definition response_of {A} (p : prog A) : option A :=
  match p with
  | Ret a => Some a
  | _ => None
  end.

(** ** Utilities *)

(** The string functions of the runtime the handlers call:
    [crypto.createHash('sha1').update(s).digest('hex')],
    [s.toUpperCase()] and [s.slice(0, n)]. *)
Record StringLib := mkStringLib {
  sha1_hex : string → string;
  toUpperCase : string → string;
  slice0 : nat → string → string
}.

(** What [toUpperCase] and [slice] do on ASCII text. *)
Definition upper_ascii (c : ascii) : ascii :=
  let n := nat_of_ascii c in
  if ((97 <=? n) && (n <=? 122))%nat then ascii_of_nat (n - 32) else c.

Fixpoint ascii_toUpperCase (s : string) : string :=
  match s with
  | EmptyString => EmptyString
  | String c s' => String (upper_ascii c) (ascii_toUpperCase s')
  end.

Definition ascii_slice0 (n : nat) (s : string) : string := String.substring 0 n s.

Fixpoint is_ascii (s : string) : bool :=
  match s with
  | EmptyString => true
  | String c s' => (nat_of_ascii c <? 128)%nat && is_ascii s'
  end.

(** [lib] treats ASCII text as the language prescribes. *)
Definition ascii_conforming (lib : StringLib) : Prop :=
  ∀ s, is_ascii s = true →
    toUpperCase lib s = ascii_toUpperCase s
    ∧ ∀ n, slice0 lib n s = ascii_slice0 n s.

(** [v || null] on an optional string. *)
Definition str_or_null (v : option string) : option string :=
  if truthy_str v then v else None.

Section ReferralCode.
Variable lib : StringLib.

(** generate human-friendly referral code *)
Definition makeReferralCode (uid : string) (date_now : Z) : string :=
  let hash :=
    toUpperCase lib (slice0 lib 6 (sha1_hex lib (uid +:+ pretty date_now))) in
  toUpperCase lib (slice0 lib 3 uid) +:+ "-" +:+ hash.

(** A POST /generateReferral request: the verified [req.user.uid] and the
    two readings of [Date.now()] the handler may take. *)
Record GenerateReq := mkGenerateReq {
  gen_uid : string;
  gen_codeTime : Z;
  gen_updateTime : Z
}.

(** POST /generateReferral.  [db.ref] is called before the [try]: when it
    refuses the path the handler's promise rejects and no answer is sent. *)
Definition generateReferral (rq : GenerateReq) : prog Response :=
  let uid := gen_uid rq in
  let generate : prog Response :=
    let newCode := makeReferralCode uid (gen_codeTime rq) in
    update [SetUserReferralCode uid newCode;
            SetUserUpdatedAt uid (gen_updateTime rq)];;
    mret (json (BReferralCode newCode)) in
  if negb (valid_path uid) then mret unanswered
  else
  snapshot ← onceUser uid;
  match snapshot with
  | Some data =>
      match User.referralCode data with
      | Some code =>
          if truthy_str (Some code) then mret (json (BReferralCode code))
          else generate
      | None => generate
      end
  | None => generate
  end.
End ReferralCode.

(** GET /referral/:code *)
Definition getReferral (code : string) : prog Response :=
  usersSnap ← onceByCode code;
  match usersSnap with
  | None => mret (fail 404 "Referral code not found")
  | Some (uid, user) =>
      mret (json (BReferralInfo uid (str_or_null (User.displayName user))))
  end.

(** A POST /applyReferral request: the verified [req.user.uid], the two
    body fields, and the values [Date.now()] and [uuidv4()] yield while it
    is handled. *)
Record ApplyReq := mkApplyReq {
  tokenUid : string;
  newUid : option string;
  usedReferralCode : option string;
  now : Z;
  referralId : string
}.

(** The [updates] object of a redemption, in assignment order. *)
Definition referral_updates (newUid usedCode : string) (newUserData : User.t)
    (referrerUid : string) (referrerUser : User.t)
    (referrerCoins referredCoins now : Z) (referralId : string) : list Write :=
  [ SetUserReferredBy newUid usedCode;
    SetUserReferralAppliedAt newUid now;
    SetUserCoins newUid (js_add (num_or (User.coins newUserData) 0) referredCoins);
    SetUserUpdatedAt newUid now;
    SetUserCoins referrerUid (js_add (num_or (User.coins referrerUser) 0) referrerCoins);
    SetUserUpdatedAt referrerUid now;
    SetReferral referralId
      (Referral.mk referralId referrerUid newUid usedCode
         (str_or_null (User.referralCode newUserData)) true
         referrerCoins referredCoins now) ].

(** POST /applyReferral.  [db.ref] is called inside the [try]: when it
    refuses the path the [catch] answers 500. *)
Definition applyReferral (env : Env) (rq : ApplyReq) : prog Response :=
  match newUid rq with
  | None => mret (fail 400 "Bad newUid")
  | Some newUid =>
  if negb (truthy_str (Some newUid)) || negb (String.eqb newUid (tokenUid rq))
  then mret (fail 400 "Bad newUid")
  else
  match usedReferralCode rq with
  | None => mret (fail 400 "Missing usedReferralCode")
  | Some usedCode =>
  if negb (truthy_str (Some usedCode))
  then mret (fail 400 "Missing usedReferralCode")
  else
  if negb (valid_path newUid)
  then mret (fail 500 "Internal error applying referral")
  else
    newUserSnap ← onceUser newUid;
    let newUserData := default User.empty newUserSnap in
    (* already applied? avoid double award *)
    if truthy_num (User.referralAppliedAt newUserData)
    then mret (fail 409 "Referral already applied")
    else
      (* find referrer *)
      refSnap ← onceByCode usedCode;
      match refSnap with
      | None => mret (fail 404 "Referral code not found")
      | Some (referrerUid, referrerUser) =>
          if String.eqb referrerUid newUid
          then mret (fail 400 "Cannot use your own code")
          else
            (* load admin settings for coins *)
            settingsSnap ← onceSettings;
            let settings := default Settings.empty settingsSnap in
            let referrerCoins :=
              award (Settings.referrerCoins settings) (DEFAULT_REFERRER_COINS env) 50 in
            let referredCoins :=
              award (Settings.referredCoins settings) (DEFAULT_REFERRED_COINS env) 20 in
            update (referral_updates newUid usedCode newUserData
                      referrerUid referrerUser referrerCoins referredCoins
                      (now rq) (referralId rq));;
            mret (json (BAwarded referrerUid referrerCoins referredCoins))
      end
  end
  end.

Section AdminReferrals.
(** [Number(s)] on a non-empty query-string value. *)
Variable Number_str : string → jsnum.

(** [Number(req.query.limit || 100)]. *)
Definition requested_limit (limit : option string) : jsnum :=
  match limit with
  | Some s => if truthy_str (Some s) then Number_str s else JInt 100
  | None => JInt 100
  end.

(** GET /admin/referrals.  [limitToLast] throws unless its argument is a
    positive integer; the handler's [catch] answers 500. *)
Definition adminReferrals (limit : option string) : prog Response :=
  match Math_min_200 (requested_limit limit) with
  | JInt z =>
      if 0 <? z then
        snap ← onceRecent (Z.to_nat z);
        mret (json (BData (list_to_map snap)))
      else mret (fail 500 "Internal error")
  | _ => mret (fail 500 "Internal error")
  end.
End AdminReferrals.

(** The [updates] object of POST /admin/settings/referral: the body fields
    that are not [undefined], coerced with [Number] and [!!]. *)
Definition settings_updates (body : Settings.t) : Settings.t :=
  Settings.mk (Settings.referrerCoins body) (Settings.referredCoins body)
              (Settings.requireCompleteProfile body).

Definition settings_writes (updates : Settings.t) : list Write :=
  match Settings.referrerCoins updates with
  | Some v => [SetSettingsReferrerCoins v] | None => [] end ++
  match Settings.referredCoins updates with
  | Some v => [SetSettingsReferredCoins v] | None => [] end ++
  match Settings.requireCompleteProfile updates with
  | Some v => [SetSettingsRequireCompleteProfile v] | None => [] end.

(** POST /admin/settings/referral *)
Definition adminSettings (body : Settings.t) : prog Response :=
  let updates := settings_updates body in
  update (settings_writes updates);;
  mret (json (BSaved updates)).

(** ** Predicates used in the statements *)

(** Every completion of [p] answers 200. *)
Inductive always_ok : prog Response → Prop :=
  | ok_ret r : status r = 200 → always_ok (Ret r)
  | ok_user uid k : (∀ x, always_ok (k x)) → always_ok (OnceUser uid k)
  | ok_by_code code k : (∀ x, always_ok (k x)) → always_ok (OnceByCode code k)
  | ok_settings k : (∀ x, always_ok (k x)) → always_ok (OnceSettings k)
  | ok_recent n k : (∀ x, always_ok (k x)) → always_ok (OnceRecent n k)
  | ok_update ws k : always_ok k → always_ok (Update ws k).

(** Whatever the reads return, [p] issues no write on a path that ends in
    a response other than 200. *)
Inductive fail_fast : prog Response → Prop :=
  | ff_ret r : fail_fast (Ret r)
  | ff_user uid k : (∀ x, fail_fast (k x)) → fail_fast (OnceUser uid k)
  | ff_by_code code k : (∀ x, fail_fast (k x)) → fail_fast (OnceByCode code k)
  | ff_settings k : (∀ x, fail_fast (k x)) → fail_fast (OnceSettings k)
  | ff_recent n k : (∀ x, fail_fast (k x)) → fail_fast (OnceRecent n k)
  | ff_update ws k : always_ok k → fail_fast (Update ws k).

(** The five validation errors of POST /applyReferral. *)
Definition validation_errors : list Response :=
  [ fail 400 "Bad newUid";
    fail 400 "Missing usedReferralCode";
    fail 409 "Referral already applied";
    fail 404 "Referral code not found";
    fail 400 "Cannot use your own code" ].

(** Number of audit records whose [referredUid] is [a]. *)
Definition ledger_entries_for (a : string) (db : Db) : nat :=
  length (List.filter (λ e, String.eqb (Referral.referredUid e.2) a)
                      (map_to_list (referrals db))).

(** The balance of an account, [0] when it has none. *)
Definition balance (uid : string) (db : Db) : Z :=
  num_or (User.coins (default User.empty (users db !! uid))) 0.

(** The number of records a listing is to hold for a requested limit:
    the limit capped at 200, when that is a positive integer. *)
Definition listing_size (requested : jsnum) : option nat :=
  match requested with
  | JInt z => if 0 <? z then Some (Z.to_nat (Z.min 200 z)) else None
  | JFrac fl => if 200 <=? fl then Some 200%nat else None
  | JPosInf => Some 200%nat
  | JNaN | JNegInf => None
  end.

(** A sequence of audit records listed newest first. *)
Definition most_recent_first (l : list (string * Referral.t)) : Prop :=
  Sorted (λ x y, Referral.createdAt y.2 ≤ Referral.createdAt x.2) l.

(** The entries of a response object listed by key. *)
Definition entries_by_key (m : gmap string Referral.t) : list (string * Referral.t) :=
  merge_sort (λ x y, String.le x.1 y.1) (map_to_list m).

(** The stored settings after merging [updates] into [old]. *)
Definition merged_settings (old : option Settings.t) (updates : Settings.t)
  : Settings.t :=
  let o := default Settings.empty old in
  Settings.mk
    (from_option Some (Settings.referrerCoins o) (Settings.referrerCoins updates))
    (from_option Some (Settings.referredCoins o) (Settings.referredCoins updates))
    (from_option Some (Settings.requireCompleteProfile o)
                 (Settings.requireCompleteProfile updates)).

(** ** Example data *)

Definition ex_env : Env := mkEnv None None.

Definition ex_alice : User.t :=
  User.mk (Some "ALI-A1B2C3") None None None None (Some "Alice").

(** One registered referrer, no redemption yet, settings never written. *)
Definition ex_db : Db := mkDb {[ "alice" := ex_alice ]} ∅ None.

Definition ex_apply (uid : string) (t : Z) (rid : string) : ApplyReq :=
  mkApplyReq uid (Some uid) (Some "ALI-A1B2C3") t rid.

(** A request for an unknown code, and one sent on behalf of another
    account. *)
Definition ex_unknown_code : ApplyReq :=
  mkApplyReq "bob" (Some "bob") (Some "NOPE-000000") 1000 "r-1".

Definition ex_mismatch : ApplyReq :=
  mkApplyReq "mallory" (Some "bob") (Some "ALI-A1B2C3") 1000 "r-1".

(** Alice after she redeemed somebody's code herself. *)
Definition ex_alice_redeemed : User.t :=
  User.mk (Some "ALI-A1B2C3") (Some 20) (Some "ZED-0F0F0F") (Some 500)
          (Some 500) (Some "Alice").

Definition ex_db_redeemed : Db := mkDb {[ "alice" := ex_alice_redeemed ]} ∅ None.

(** An admin body that sets the referrer award only. *)
Definition ex_body_10 : Settings.t := Settings.mk (Some 10) None None.

(** Settings as an admin stored them earlier. *)
Definition ex_db_settings : Db :=
  mkDb {[ "alice" := ex_alice ]} ∅ (Some (Settings.mk (Some 50) (Some 20) None)).

(** Settings with awards other than the built-in ones. *)
Definition ex_db_settings_7 : Db :=
  mkDb {[ "alice" := ex_alice ]} ∅ (Some (Settings.mk (Some 30) (Some 7) None)).

(** A stand-in for SHA-1 and two POST /generateReferral requests of the
    same account at different times. *)
Definition ex_sha1 (s : string) : string := "a1b2c3d4e5" +:+ s.
Definition ex_lib : StringLib := mkStringLib ex_sha1 ascii_toUpperCase ascii_slice0.

Definition ex_generate_1 : GenerateReq := mkGenerateReq "u1xyz" 1000 1001.
Definition ex_generate_2 : GenerateReq := mkGenerateReq "u1xyz" 2000 2001.

(** A ledger with an older and a newer audit record. *)
Definition ex_older : Referral.t :=
  Referral.mk "a1" "alice" "bob" "ALI-A1B2C3" None true 50 20 1000.

Definition ex_newer : Referral.t :=
  Referral.mk "b2" "alice" "carol" "ALI-A1B2C3" None true 50 20 2000.

Definition ex_db_ledger : Db :=
  mkDb {[ "alice" := ex_alice ]} {[ "a1" := ex_older; "b2" := ex_newer ]} None.

(** A ledger of 201 audit records, created at times 0 to 200. *)
Definition ex_record (i : nat) : string * Referral.t :=
  (pretty i, Referral.mk (pretty i) "alice" ("u" +:+ pretty i) "ALI-A1B2C3"
               None true 50 20 (Z.of_nat i)).

Definition ex_db_long_ledger : Db :=
  mkDb {[ "alice" := ex_alice ]} (list_to_map (ex_record <$> seq 0 201)) None.

(** A stand-in for [Number] on query-string values. *)
Definition ex_Number (s : string) : jsnum := JInt 500.

(** Two requests in flight at once.  Each successful redemption awaits
    four operations (read the account, look the code up, read the
    settings, write); [ex_overlapped] alternates between the two requests,
    [ex_one_by_one] finishes the first before the second starts. *)
Definition ex_overlapped : list nat := [0; 1; 0; 1; 0; 1; 0; 1]%nat.
Definition ex_one_by_one : list nat := [0; 0; 0; 0; 1; 1; 1; 1]%nat.

(** The same account redeeming twice (a retried or doubled request). *)
Definition ex_same_account : list (prog Response) :=
  [ applyReferral ex_env (ex_apply "bob" 1000 "r-1");
    applyReferral ex_env (ex_apply "bob" 1001 "r-2") ].

(** Two accounts redeeming the code of the same referrer. *)
Definition ex_same_referrer : list (prog Response) :=
  [ applyReferral ex_env (ex_apply "bob" 1000 "r-1");
    applyReferral ex_env (ex_apply "carol" 1001 "r-2") ].

(** ** Middlewares and routes *)

(** The decoded ID token [req.user]: its [uid] and whether the custom
    claims [admin] and [isAdmin] are the boolean [true]. *)
Module Token.
Record t := mk {
  uid : string;
  admin : bool;
  isAdmin : bool
}.
End Token.

(** The characters the regular-expression dot does not match, among the
    Latin-1 characters a header value is made of. *)
Definition is_line_terminator (c : ascii) : bool :=
  Ascii.eqb c "010"%char || Ascii.eqb c "013"%char.

Fixpoint no_line_terminator (s : string) : bool :=
  match s with
  | EmptyString => true
  | String c s' => negb (is_line_terminator c) && no_line_terminator s'
  end.

Fixpoint strip_prefix (p s : string) : option string :=
  match p, s with
  | EmptyString, _ => Some s
  | String a p', String b s' => if Ascii.eqb a b then strip_prefix p' s' else None
  | String _ _, EmptyString => None
  end.

(** [auth.match(/^Bearer (.+)$/)], giving [match[1]]. *)
Definition bearer_token (auth : string) : option string :=
  match strip_prefix "Bearer " auth with
  | Some t => if negb (String.eqb t "") && no_line_terminator t then Some t else None
  | None => None
  end.

(** [s.split(',')]. *)
Fixpoint split_comma (s : string) : list string :=
  match s with
  | EmptyString => [EmptyString]
  | String c s' =>
      if Ascii.eqb c ","%char then EmptyString :: split_comma s'
      else match split_comma s' with
           | x :: xs => String c x :: xs
           | [] => [String c EmptyString]
           end
  end.

(** [(process.env.ADMIN_UIDS || "").split(',').filter(Boolean)]. *)
Definition ADMIN_UIDS (env_value : option string) : list string :=
  List.filter (λ s, negb (String.eqb s "")) (split_comma (default "" env_value)).

Section Middleware.
(** [admin.auth().verifyIdToken(idToken)]: the decoded token, or [None]
    when the promise rejects. *)
Variable verifyIdToken : string → option Token.t.

(** helper: verify firebase id token middleware.  [next] is the rest of
    the route, run with [req.user] set to the decoded token. *)
Definition verifyToken (authorization : option string)
    (next : Token.t → prog Response) : prog Response :=
  match bearer_token (default "" authorization) with
  | None => mret (fail 401 "Missing Authorization header")
  | Some idToken =>
      match verifyIdToken idToken with
      | Some decoded => next decoded
      | None => mret (fail 401 "Invalid ID token")
      end
  end.

(** helper: admin check *)
Definition requireAdmin (admins : list string) (user : Token.t)
    (next : prog Response) : prog Response :=
  let uid := Token.uid user in
  if negb (truthy_str (Some uid)) then mret (fail 403 "Not authenticated")
  else if bool_decide (uid ∈ admins) || Token.admin user || Token.isAdmin user
  then next
  else
    (* fallback: check custom claim *)
    if Token.admin user then next
    else mret (fail 403 "Admin only").

(** The routes as registered with [app.post] and [app.get]. *)
Definition POST_generateReferral (lib : StringLib)
    (authorization : option string) (codeTime updateTime : Z) : prog Response :=
  verifyToken authorization (λ user,
    generateReferral lib (mkGenerateReq (Token.uid user) codeTime updateTime)).

Definition POST_applyReferral (env : Env) (authorization : option string)
    (body_newUid body_usedReferralCode : option string)
    (date_now : Z) (uuid : string) : prog Response :=
  verifyToken authorization (λ user,
    applyReferral env
      (mkApplyReq (Token.uid user) body_newUid body_usedReferralCode date_now uuid)).

Definition GET_admin_referrals (Number_str : string → jsnum)
    (admins : list string) (authorization : option string)
    (limit : option string) : prog Response :=
  verifyToken authorization (λ user,
    requireAdmin admins user (adminReferrals Number_str limit)).

Definition POST_admin_settings_referral (admins : list string)
    (authorization : option string) (body : Settings.t) : prog Response :=
  verifyToken authorization (λ user,
    requireAdmin admins user (adminSettings body)).
End Middleware.

(** ** Further predicates *)

(** Every [update] call [p] can come to issue satisfies [P]. *)
Inductive all_writes {A} (P : list Write → Prop) : prog A → Prop :=
  | aw_ret a : all_writes P (Ret a)
  | aw_user uid k : (∀ x, all_writes P (k x)) → all_writes P (OnceUser uid k)
  | aw_by_code code k : (∀ x, all_writes P (k x)) → all_writes P (OnceByCode code k)
  | aw_settings k : (∀ x, all_writes P (k x)) → all_writes P (OnceSettings k)
  | aw_recent n k : (∀ x, all_writes P (k x)) → all_writes P (OnceRecent n k)
  | aw_update ws k : P ws → all_writes P k → all_writes P (Update ws k).

(** The five handlers, with any arguments. *)
Inductive handler : prog Response → Prop :=
  | h_generate lib rq : handler (generateReferral lib rq)
  | h_get code : handler (getReferral code)
  | h_apply env rq : handler (applyReferral env rq)
  | h_list Number_str limit : handler (adminReferrals Number_str limit)
  | h_settings body : handler (adminSettings body).

(** A write that puts into the ledger only well-formed audit records:
    stored under their own id, awarded, referrer and redeemer distinct. *)
Definition sound_record (id : string) (r : Referral.t) : Prop :=
  Referral.id r = id ∧ Referral.awarded r = true
  ∧ Referral.referrerUid r ≠ Referral.referredUid r.

Definition sound_write (w : Write) : Prop :=
  match w with
  | SetReferral id r => sound_record id r
  | _ => True
  end.

Definition sound_ledger (db : Db) : Prop :=
  ∀ id r, referrals db !! id = Some r → sound_record id r.

(** The already-applied test on the stored account. *)
Definition has_redeemed (a : string) (db : Db) : bool :=
  truthy_num (User.referralAppliedAt (default User.empty (users db !! a))).



(** The referral code stored for an account, if any. *)
Definition code_of (db : Db) (uid : string) : option string :=
  users db !! uid ≫= User.referralCode.

(** A code is held by the account stored under the key [uid] with
    record [u]. *)
Definition holder (code : string) (db : Db) (uid : string) (u : User.t) : Prop :=
  valid_key uid = true ∧ users db !! uid = Some u ∧ User.referralCode u = Some code.

(** ** Further example data *)

(** A token service that knows two tokens. *)
Definition ex_verifyIdToken (idToken : string) : option Token.t :=
  if String.eqb idToken "tok-bob" then Some (Token.mk "bob" false false)
  else if String.eqb idToken "tok-root" then Some (Token.mk "root" false true)
  else None.

(** A hash stand-in whose first characters depend on the time. *)
Definition ex_sha1_rev (s : string) : string := String.rev s.
Definition ex_lib_rev : StringLib :=
  mkStringLib ex_sha1_rev ascii_toUpperCase ascii_slice0.

(** Two accounts holding the same code. *)
Definition ex_db_duplicate : Db :=
  mkDb {[ "zoe" := ex_alice; "alice" := ex_alice ]} ∅ None.

(** Two accounts with integer-like uids holding the same code. *)
Definition ex_db_numbered : Db :=
  mkDb {[ "10" := ex_alice; "9" := ex_alice ]} ∅ None.

(** An account that already holds the code another account is about to
    be given. *)
Definition ex_db_collision : Db :=
  mkDb {[ "7" := User.mk (Some "10A-A1B2C3") None None None None None ]} ∅ None.

(** Two POST /generateReferral requests of one account whose awaited
    operations (read the account, write the code) alternate, and the same
    two handled one after the other. *)
Definition ex_overlapped_generate : list nat := [0; 1; 0; 1]%nat.
Definition ex_one_by_one_generate : list nat := [0; 0; 1]%nat.

Definition ex_same_generate : list (prog Response) :=
  [ generateReferral ex_lib_rev ex_generate_1;
    generateReferral ex_lib_rev ex_generate_2 ].

(** Two accounts, each holding a code of its own. *)
Definition ex_zoe : User.t :=
  User.mk (Some "ZOE-0F0F0F") None None None None None.

Definition ex_db_pair : Db :=
  mkDb {[ "alice" := ex_alice; "zoe" := ex_zoe ]} ∅ None.

(** ** Basic facts about the semantics *)

Lemma run_step {A} (db : Db) (p : prog A) :
  run db p = run (step db p).1 (step db p).2.
Proof. by destruct p. Qed.

Lemma run_bind {A B} (db : Db) (p : prog A) (f : A → prog B) :
  run db (p ≫= f) = run (run db p).1 (f (run db p).2).
Proof.
  revert db. induction p as [a|uid k IH|code k IH|k IH|n k IH|ws k IH];
    intros db; simpl; auto.
Qed.

(** A schedule that only ever picks one request runs it as [run] does. *)
Lemma interleave_alone {A} (p : prog A) (db : Db) (n : nat) :
  ∀ db' q, interleave (replicate n 0%nat) db [p] = (db', [q]) →
           run db p = run db' q.
Proof.
  revert p db. induction n as [|n IH]; intros p db db' q; simpl.
  - by intros [= -> ->].
  - destruct (step db p) as [db1 p1] eqn:Hs. simpl. intros H.
    rewrite run_step, Hs. simpl. by apply IH.
Qed.

Lemma always_ok_run (p : prog Response) :
  always_ok p → ∀ db, status (run db p).2 = 200.
Proof. induction 1; intros db; simpl; auto. Qed.

Lemma fail_fast_run (p : prog Response) :
  fail_fast p → ∀ db, status (run db p).2 ≠ 200 → (run db p).1 = db.
Proof.
  induction 1 as [r|uid k _ IH|code k _ IH|k _ IH|n k _ IH|ws k Hk];
    intros db; simpl; auto.
  intros Hne. destruct Hne. by apply always_ok_run.
Qed.

(** A step that changes nothing or a step after which only 200 remains:
    the shape of every step of a fail-fast program. *)
Lemma fail_fast_step (p : prog Response) (db : Db) :
  fail_fast p →
  (step db p).1 = db ∧ fail_fast (step db p).2 ∨ always_ok (step db p).2.
Proof.
  destruct 1; simpl; auto using fail_fast.
Qed.

Lemma applyReferral_fail_fast (env : Env) (rq : ApplyReq) :
  fail_fast (applyReferral env rq).
Proof.
  unfold applyReferral.
  repeat (first [ apply ff_ret | constructor; intros | case_match ]);
    simpl; repeat constructor.
Qed.

Lemma applyReferral_outcomes (env : Env) (rq : ApplyReq) (db : Db) :
  status (run db (applyReferral env rq)).2 = 200
  ∨ (run db (applyReferral env rq)).2 ∈ validation_errors
  ∨ (run db (applyReferral env rq)).2 = fail 500 "Internal error applying referral".
Proof.
  unfold applyReferral, validation_errors.
  repeat (case_match; simpl; try (right; left; set_solver)); auto.
Qed.

(** ** POST /applyReferral: validation *)

(** C3: a redemption request that ends in one of the five validation
    errors (bad newUid, missing code, already applied, code not found,
    own code) leaves the whole database as it was; moreover the handler
    issues no write on any path that ends in an error, whatever its reads
    return. *)
Theorem applyReferral_error_state_unchanged
    (env : Env) (rq : ApplyReq) (db : Db) :
  (run db (applyReferral env rq)).2 ∈ validation_errors →
  (run db (applyReferral env rq)).1 = db ∧ fail_fast (applyReferral env rq).
Proof.
  intros Herr. split; [|apply applyReferral_fail_fast].
  apply fail_fast_run; [apply applyReferral_fail_fast|].
  intros H200. unfold validation_errors in Herr.
  destruct (run db (applyReferral env rq)) as [db' r]. simpl in *.
  set_unfold in Herr.
  destruct Herr as [->|[->|[->|[->|[->|[]]]]]]; discriminate H200.
Qed.

Lemma applyReferral_error_state_unchanged_witness :
  (run ex_db (applyReferral ex_env ex_unknown_code)).2 ∈ validation_errors
  ∧ (run ex_db (applyReferral ex_env ex_unknown_code)).1 = ex_db
  ∧ fail_fast (applyReferral ex_env ex_unknown_code).
Proof.
  assert (H : (run ex_db (applyReferral ex_env ex_unknown_code)).2
              ∈ validation_errors).
  { vm_compute. do 3 apply list_elem_of_further. apply list_elem_of_here. }
  split; [exact H|].
  exact (applyReferral_error_state_unchanged ex_env ex_unknown_code ex_db H).
Defined.

(** C4 (as stated, refuted): a request whose [newUid] differs from the
    token's uid is answered 400, not 403. *)
Lemma applyReferral_mismatch_not_403 :
  newUid ex_mismatch ≠ Some (tokenUid ex_mismatch)
  ∧ status (run ex_db (applyReferral ex_env ex_mismatch)).2 = 400
  ∧ status (run ex_db (applyReferral ex_env ex_mismatch)).2 ≠ 403.
Proof. vm_compute. repeat split; discriminate. Qed.

(** C4 (amended): when the body's [newUid] is not the token's uid the
    handler answers 400 "Bad newUid" at once: it is the first check, made
    before the code is looked at and before any database operation, and
    the database is left as it was. *)
Theorem applyReferral_identity_mismatch (env : Env) (rq : ApplyReq) :
  newUid rq ≠ Some (tokenUid rq) →
  applyReferral env rq = Ret (fail 400 "Bad newUid")
  ∧ ∀ db, run db (applyReferral env rq) = (db, fail 400 "Bad newUid").
Proof.
  intros Hne.
  assert (applyReferral env rq = Ret (fail 400 "Bad newUid")) as ->.
  { unfold applyReferral. destruct (newUid rq) as [u|]; [|done].
    destruct (String.eqb u (tokenUid rq)) eqn:E.
    - apply String.eqb_eq in E. congruence.
    - by rewrite orb_true_r. }
  done.
Qed.

Lemma applyReferral_identity_mismatch_witness :
  newUid ex_mismatch ≠ Some (tokenUid ex_mismatch)
  ∧ applyReferral ex_env ex_mismatch = Ret (fail 400 "Bad newUid")
  ∧ ∀ db, run db (applyReferral ex_env ex_mismatch)
          = (db, fail 400 "Bad newUid").
Proof.
  assert (H : newUid ex_mismatch ≠ Some (tokenUid ex_mismatch))
    by (vm_compute; discriminate).
  split; [exact H|].
  exact (applyReferral_identity_mismatch ex_env ex_mismatch H).
Defined.

(** ** Numbers and keys *)

Lemma round_double_exact (z : Z) : Z.abs z < 2 ^ 53 → round_double z = z.
Proof.
  intros H. unfold round_double.
  destruct (Z.ltb_spec (Z.abs z) (2 ^ 53)); [done|lia].
Qed.

(** Below 2^53 the sum of two numbers is their sum as integers. *)
Lemma js_add_exact (x y : Z) : Z.abs (x + y) < 2 ^ 53 → js_add x y = x + y.
Proof. apply round_double_exact. Qed.

Lemma valid_key_path (k : string) : valid_key k = true → valid_path k = true.
Proof.
  unfold valid_key. intros H. apply andb_true_iff in H as [H _].
  by apply andb_true_iff in H as [_ H].
Qed.

Lemma valid_key_nonempty (k : string) : valid_key k = true → k ≠ "".
Proof. intros H ->. discriminate H. Qed.

Lemma valid_key_truthy (k : string) :
  valid_key k = true → truthy_str (Some k) = true.
Proof.
  unfold valid_key, truthy_str. intros H. apply andb_true_iff in H as [H _].
  by apply andb_true_iff in H as [H _].
Qed.

Lemma key_leb_refl (a : string) : key_leb a a = true.
Proof.
  unfold key_leb. destruct (tryParseInt a) as [x|].
  - rewrite Z.ltb_irrefl, Z.eqb_refl, Nat.ltb_irrefl, Nat.eqb_refl. simpl.
    apply Is_true_true. apply (reflexivity (R := String.le)).
  - apply Is_true_true. apply (reflexivity (R := String.le)).
Qed.

Local Ltac key_cases :=
  repeat match goal with
  | |- context [?x <? ?y] => destruct (Z.ltb_spec x y)
  | |- context [?x =? ?y] => destruct (Z.eqb_spec x y)
  | |- context [(?x <? ?y)%nat] => destruct (Nat.ltb_spec x y)
  | |- context [(?x =? ?y)%nat] => destruct (Nat.eqb_spec x y)
  | H : context [?x <? ?y] |- _ => destruct (Z.ltb_spec x y)
  | H : context [?x =? ?y] |- _ => destruct (Z.eqb_spec x y)
  | H : context [(?x <? ?y)%nat] |- _ => destruct (Nat.ltb_spec x y)
  | H : context [(?x =? ?y)%nat] |- _ => destruct (Nat.eqb_spec x y)
  end; simpl in *; try done; try lia.

Lemma key_leb_total (a b : string) : key_leb a b = true ∨ key_leb b a = true.
Proof.
  unfold key_leb. destruct (tryParseInt a) as [x|], (tryParseInt b) as [y|]; auto.
  - key_cases; auto. apply String.leb_total.
  - apply String.leb_total.
Qed.

Lemma key_leb_antisym (a b : string) :
  key_leb a b = true → key_leb b a = true → a = b.
Proof.
  unfold key_leb. destruct (tryParseInt a) as [x|], (tryParseInt b) as [y|];
    try done.
  - intros H1 H2. key_cases. by apply String.leb_antisym.
  - apply String.leb_antisym.
Qed.

Lemma string_leb_trans (a b c : string) :
  String.leb a b = true → String.leb b c = true → String.leb a c = true.
Proof.
  intros H1%Is_true_true H2%Is_true_true. apply Is_true_true.
  exact (transitivity (R := String.le) H1 H2).
Qed.

Lemma key_leb_trans (a b c : string) :
  key_leb a b = true → key_leb b c = true → key_leb a c = true.
Proof.
  unfold key_leb.
  destruct (tryParseInt a) as [x|], (tryParseInt b) as [y|],
    (tryParseInt c) as [z|]; try done.
  - intros H1 H2. key_cases. eauto using string_leb_trans.
  - apply string_leb_trans.
Qed.

(** The order of keys is a total order. *)
Global Instance key_le_po : PartialOrder key_le.
Proof.
  unfold key_le. split; [split|].
  - intros a. apply Is_true_true, key_leb_refl.
  - intros a b c H1%Is_true_true H2%Is_true_true. apply Is_true_true.
    eauto using key_leb_trans.
  - intros a b H1%Is_true_true H2%Is_true_true. by apply key_leb_antisym.
Qed.

Global Instance key_le_total : Total key_le.
Proof.
  intros a b. unfold key_le.
  destruct (key_leb_total a b) as [->| ->]; auto.
Qed.

(** ** The code lookup *)

Lemma first_key_foldr_elem (l : list (string * User.t)) (e : string * User.t) :
  foldr first_key None l = Some e → e ∈ l.
Proof.
  induction l as [|x l IH]; simpl; [done|].
  unfold first_key at 1. destruct (foldr first_key None l) as [e'|].
  - destruct (key_leb x.1 e'.1); intros [= <-].
    + apply list_elem_of_here.
    + apply list_elem_of_further. by apply IH.
  - intros [= <-]. apply list_elem_of_here.
Qed.

Lemma first_key_foldr_nonempty (l : list (string * User.t)) :
  l ≠ [] → is_Some (foldr first_key None l).
Proof.
  destruct l as [|x l]; [done|]. intros _. simpl.
  unfold first_key at 1. destruct (foldr first_key None l) as [e'|]; [|eauto].
  destruct (key_leb x.1 e'.1); eauto.
Qed.

(** The lookup only ever returns a stored account that holds the code. *)
Lemma query_by_code_Some (code : string) (db : Db) (uid : string) (u : User.t) :
  query_by_code code db = Some (uid, u) →
  users db !! uid = Some u ∧ User.referralCode u = Some code.
Proof.
  unfold query_by_code. intros H%first_key_foldr_elem.
  apply list_elem_of_In, filter_In in H as [Hin Hc].
  apply list_elem_of_In, elem_of_map_to_list in Hin. split; [done|].
  unfold holds_code in Hc. simpl in Hc. apply andb_true_iff in Hc as [_ Hc].
  destruct (User.referralCode u) as [c|]; [|done].
  by apply String.eqb_eq in Hc as ->.
Qed.

(** The uid the lookup returns is a key of the database. *)
Lemma query_by_code_valid (code : string) (db : Db) (uid : string) (u : User.t) :
  query_by_code code db = Some (uid, u) → valid_key uid = true.
Proof.
  unfold query_by_code. intros H%first_key_foldr_elem.
  apply list_elem_of_In, filter_In in H as [_ Hc].
  unfold holds_code in Hc. simpl in Hc. by apply andb_true_iff in Hc as [Hc _].
Qed.

(** A code held by some account is found. *)
Lemma query_by_code_found (code : string) (db : Db) (uid : string) (u : User.t) :
  holder code db uid u → is_Some (query_by_code code db).
Proof.
  intros (Hv & Hu & Hc). apply first_key_foldr_nonempty.
  assert (In (uid, u) (List.filter (holds_code code) (map_to_list (users db)))) as Hin.
  { apply filter_In. split.
    - by apply list_elem_of_In, elem_of_map_to_list.
    - unfold holds_code. simpl. rewrite Hv, Hc. apply String.eqb_refl. }
  intros E. by rewrite E in Hin.
Qed.

(** A code held by one account only resolves to that account. *)
Lemma query_by_code_sole_holder (code : string) (db : Db) (uid : string) (u : User.t) :
  holder code db uid u →
  (∀ uid' u', holder code db uid' u' → uid' = uid) →
  query_by_code code db = Some (uid, u).
Proof.
  intros Hh Hsole.
  destruct (query_by_code_found code db uid u Hh) as [[uid' u'] Hq].
  destruct (query_by_code_Some _ _ _ _ Hq) as [Hu' Hc'].
  pose proof (query_by_code_valid _ _ _ _ Hq) as Hv'.
  assert (uid' = uid) as -> by (apply (Hsole uid' u'); by repeat split).
  destruct Hh as (_ & Hu & _). congruence.
Qed.

(** An unknown code is not found. *)
Lemma query_by_code_None (code : string) (db : Db) :
  (∀ uid u, ¬ holder code db uid u) →
  query_by_code code db = None.
Proof.
  intros Hno. destruct (query_by_code code db) as [[uid u]|] eqn:E; [|done].
  destruct (Hno uid u). split; [by eapply query_by_code_valid|].
  by apply query_by_code_Some.
Qed.

(** ** The database after an update *)

Lemma users_upd_user (uid uid' : string) (f : User.t → User.t) (db : Db) :
  users (upd_user uid f db) !! uid'
  = if decide (uid = uid') then Some (f (default User.empty (users db !! uid)))
    else users db !! uid'.
Proof. unfold upd_user. simpl. apply lookup_insert. Qed.

Lemma referrals_upd_user (uid : string) (f : User.t → User.t) (db : Db) :
  referrals (upd_user uid f db) = referrals db.
Proof. done. Qed.

Lemma settings_upd_user (uid : string) (f : User.t → User.t) (db : Db) :
  settings (upd_user uid f db) = settings db.
Proof. done. Qed.

Section Redemption.
Context (newUid usedCode : string) (newUserData : User.t)
        (referrerUid : string) (referrerUser : User.t)
        (referrerCoins referredCoins now : Z) (referralId : string).

Let commit (db : Db) : Db :=
  apply_updates (referral_updates newUid usedCode newUserData referrerUid
                   referrerUser referrerCoins referredCoins now referralId) db.

(** The redeeming account after the multi-path update. *)
Lemma commit_new_user (db : Db) :
  referrerUid ≠ newUid →
  users (commit db) !! newUid
  = Some (User.mk (User.referralCode (default User.empty (users db !! newUid)))
                  (Some (js_add (num_or (User.coins newUserData) 0) referredCoins))
                  (Some usedCode) (Some now) (Some now)
                  (User.displayName (default User.empty (users db !! newUid)))).
Proof.
  intros Hne. unfold commit, apply_updates, referral_updates, upd_user. simpl.
  rewrite !lookup_insert. repeat (case_decide; try congruence). done.
Qed.

(** The referrer after the multi-path update. *)
Lemma commit_referrer (db : Db) :
  referrerUid ≠ newUid →
  users (commit db) !! referrerUid
  = Some (User.set_updatedAt now
            (User.set_coins (js_add (num_or (User.coins referrerUser) 0) referrerCoins)
               (default User.empty (users db !! referrerUid)))).
Proof.
  intros Hne. unfold commit, apply_updates, referral_updates, upd_user. simpl.
  rewrite !lookup_insert. repeat (case_decide; try congruence). done.
Qed.

(** Every other account is untouched. *)
Lemma commit_other_user (db : Db) (uid : string) :
  uid ≠ newUid → uid ≠ referrerUid →
  users (commit db) !! uid = users db !! uid.
Proof.
  intros H1 H2. unfold commit, apply_updates, referral_updates, upd_user. simpl.
  rewrite !lookup_insert. repeat (case_decide; try congruence).
Qed.

(** The ledger gains the one record written under [referralId]. *)
Lemma commit_referrals (db : Db) :
  referrals (commit db)
  = <[referralId := Referral.mk referralId referrerUid newUid usedCode
                      (str_or_null (User.referralCode newUserData)) true
                      referrerCoins referredCoins now]> (referrals db).
Proof. done. Qed.

End Redemption.

(** The successful path of POST /applyReferral, run with no other request
    in flight. *)
Lemma applyReferral_success (env : Env) (rq : ApplyReq) (db : Db)
    (a code r : string) (ru : User.t) :
  newUid rq = Some a → tokenUid rq = a → a ≠ "" → valid_path a = true →
  usedReferralCode rq = Some code → code ≠ "" →
  truthy_num (User.referralAppliedAt (default User.empty (users db !! a))) = false →
  query_by_code code db = Some (r, ru) → r ≠ a →
  let s := default Settings.empty (settings db) in
  let a1 := award (Settings.referrerCoins s) (DEFAULT_REFERRER_COINS env) 50 in
  let a2 := award (Settings.referredCoins s) (DEFAULT_REFERRED_COINS env) 20 in
  run db (applyReferral env rq)
  = (apply_updates
       (referral_updates a code (default User.empty (users db !! a)) r ru
          a1 a2 (now rq) (referralId rq)) db,
     json (BAwarded r a1 a2)).
Proof.
  intros Hn Ht Ha Hv Hc Hcode Happ Hq Hne s a1 a2.
  unfold applyReferral. rewrite Hn, Hc, Ht. simpl.
  apply String.eqb_neq in Ha, Hcode. rewrite Ha, Hcode, String.eqb_refl, Hv. simpl.
  rewrite Happ. simpl. rewrite Hq. simpl.
  apply String.eqb_neq in Hne. rewrite Hne. done.
Qed.

(** ** POST /applyReferral: own code *)

(** C5 (as stated, refuted): an account that has already redeemed a code
    and then submits its own code is answered 409 "Referral already
    applied", not "Cannot use your own code": the already-applied check
    comes before the code is resolved. *)
Lemma applyReferral_redeemed_account_own_code :
  query_by_code "ALI-A1B2C3" ex_db_redeemed = Some ("alice", ex_alice_redeemed)
  ∧ (run ex_db_redeemed (applyReferral ex_env (ex_apply "alice" 1000 "r-1"))).2
    = fail 409 "Referral already applied"
  ∧ (run ex_db_redeemed (applyReferral ex_env (ex_apply "alice" 1000 "r-1"))).2
    ≠ fail 400 "Cannot use your own code".
Proof. vm_compute. repeat split; discriminate. Qed.

(** C5 (amended): when account [a] submits, for itself, a non-empty code
    that the lookup resolves to [a], the request always fails and the
    database is left as it was; the answer is 400 "Cannot use your own
    code" if [a] has not yet redeemed a code and 409 "Referral already
    applied" if it has. *)
Theorem applyReferral_own_code
    (env : Env) (db : Db) (a code : string) (u : User.t) (t : Z) (rid : string) :
  a ≠ "" → code ≠ "" → query_by_code code db = Some (a, u) →
  run db (applyReferral env (mkApplyReq a (Some a) (Some code) t rid))
  = (db, if truthy_num (User.referralAppliedAt u)
         then fail 409 "Referral already applied"
         else fail 400 "Cannot use your own code").
Proof.
  intros Ha Hcode Hq.
  destruct (query_by_code_Some _ _ _ _ Hq) as [Hu _].
  pose proof (valid_key_path _ (query_by_code_valid _ _ _ _ Hq)) as Hv.
  unfold applyReferral. simpl.
  apply String.eqb_neq in Ha, Hcode. rewrite Ha, Hcode, String.eqb_refl, Hv. simpl.
  rewrite Hu. simpl. destruct (truthy_num (User.referralAppliedAt u)); [done|].
  simpl. rewrite Hq. simpl. by rewrite String.eqb_refl.
Qed.

Lemma applyReferral_own_code_witness :
  run ex_db (applyReferral ex_env (ex_apply "alice" 1000 "r-1"))
  = (ex_db, fail 400 "Cannot use your own code").
Proof.
  apply (applyReferral_own_code ex_env ex_db "alice" "ALI-A1B2C3" ex_alice
           1000 "r-1"); [discriminate | discriminate | vm_compute; reflexivity].
Defined.

(** ** POST /applyReferral: a redeeming account with no record *)



(** ** POST /admin/settings/referral *)

Lemma settings_eta (s : Settings.t) :
  Settings.mk (Settings.referrerCoins s) (Settings.referredCoins s)
              (Settings.requireCompleteProfile s) = s.
Proof. by destruct s. Qed.

(** The handler touches the settings record only, merges the supplied
    fields into it, and echoes the supplied fields. *)
Lemma adminSettings_run (body : Settings.t) (db : Db) :
  ∃ db', run db (adminSettings body) = (db', json (BSaved (settings_updates body)))
         ∧ users db' = users db
         ∧ referrals db' = referrals db
         ∧ default Settings.empty (settings db') = merged_settings (settings db) body
         ∧ (body ≠ Settings.empty →
            settings db' = Some (merged_settings (settings db) body))
         ∧ (body = Settings.empty → db' = db).
Proof.
  destruct body as [[c1|] [c2|] [b|]], db as [us rs [[o1 o2 o3]|]];
    (eexists; split; [reflexivity|]); simpl; repeat split; try done;
    intros; try discriminate.
Qed.

(** ** POST /applyReferral: award amounts *)

Lemma balance_after_credit (uid : string) (db db' : Db) (x : Z) :
  User.coins (default User.empty (users db' !! uid))
  = Some (js_add (num_or (User.coins (default User.empty (users db !! uid))) 0) x) →
  balance uid db' = js_add (balance uid db) x.
Proof.
  unfold balance. intros ->. simpl.
  generalize (js_add (num_or (User.coins (default User.empty (users db !! uid))) 0) x).
  intros y. by destruct (Z.eqb_spec y 0) as [->|].
Qed.

Lemma award_unfold (configured env_default : option Z) (fallback : Z) :
  award configured env_default fallback
  = match configured with
    | Some n => if n =? 0 then default fallback env_default else n
    | None => default fallback env_default
    end.
Proof.
  unfold award, truthy_num. destruct configured as [n|], env_default; simpl; auto;
    by destruct (n =? 0).
Qed.

(** C6: award amounts are resolved from the settings record as it is read
    during the request.  Whatever the state [db0] before (earlier
    redemptions included), once an admin update [body] has been stored the
    next redemption of an account [a] (a key the database admits) is
    answered with, and credits, the amounts of the merged settings: a
    stored amount other than 0 is the amount, whatever it is (a supplied
    [referrerCoins] of 10 gives 10 and not 50); a field that is unset (or
    stored as 0) falls back to the environment default and then to 50
    (referrer) and 20 (redeemer).  The balances grow by these amounts, as
    numbers are added (exactly below 2^53); the amounts are copied into
    the new audit record, and every audit record that existed before is
    left as it was. *)
Theorem applyReferral_awards_current_settings
    (env : Env) (db0 : Db) (body : Settings.t) (rq : ApplyReq)
    (a code r : string) (ru : User.t) :
  valid_key a = true →
  newUid rq = Some a → tokenUid rq = a →
  usedReferralCode rq = Some code → code ≠ "" →
  truthy_num (User.referralAppliedAt (default User.empty (users db0 !! a))) = false →
  query_by_code code db0 = Some (r, ru) → r ≠ a →
  referrals db0 !! referralId rq = None →
  let db1 := (run db0 (adminSettings body)).1 in
  let s := merged_settings (settings db0) body in
  let a1 := match Settings.referrerCoins s with
            | Some n => if n =? 0 then default 50 (DEFAULT_REFERRER_COINS env) else n
            | None => default 50 (DEFAULT_REFERRER_COINS env)
            end in
  let a2 := match Settings.referredCoins s with
            | Some n => if n =? 0 then default 20 (DEFAULT_REFERRED_COINS env) else n
            | None => default 20 (DEFAULT_REFERRED_COINS env)
            end in
  ∃ db2 e,
    run db1 (applyReferral env rq) = (db2, json (BAwarded r a1 a2))
    ∧ balance r db2 = js_add (balance r db0) a1
    ∧ balance a db2 = js_add (balance a db0) a2
    ∧ (Z.abs (balance r db0 + a1) < 2 ^ 53 → balance r db2 = balance r db0 + a1)
    ∧ (Z.abs (balance a db0 + a2) < 2 ^ 53 → balance a db2 = balance a db0 + a2)
    ∧ referrals db2 !! referralId rq = Some e
    ∧ Referral.referrerCoins e = a1 ∧ Referral.referredCoins e = a2
    ∧ (∀ id e', referrals db0 !! id = Some e' → referrals db2 !! id = Some e').
Proof.
  intros Hv Hn Ht Hc Hcode Happ Hq Hne Hfresh db1 s a1 a2.
  destruct (adminSettings_run body db0) as (db1' & Hrun & Hus & Hrs & Hs & _).
  assert (db1 = db1') as Hdb1 by (unfold db1; by rewrite Hrun).
  clearbody db1. subst db1'.
  assert (query_by_code code db1 = Some (r, ru)) as Hq1
    by (unfold query_by_code; by rewrite Hus).
  destruct (query_by_code_Some _ _ _ _ Hq) as [Hr _].
  pose proof (applyReferral_success env rq db1 a code r ru Hn Ht
                (valid_key_nonempty _ Hv) (valid_key_path _ Hv) Hc Hcode) as Hrun1.
  rewrite Hus in Hrun1. specialize (Hrun1 Happ Hq1 Hne). cbv zeta in Hrun1.
  rewrite Hs, !award_unfold in Hrun1. fold s a1 a2 in Hrun1.
  assert (balance r (run db1 (applyReferral env rq)).1 = js_add (balance r db0) a1)
    as Hbr.
  { rewrite Hrun1. cbn [fst]. apply balance_after_credit.
    rewrite commit_referrer by done. by rewrite Hus, Hr. }
  assert (balance a (run db1 (applyReferral env rq)).1 = js_add (balance a db0) a2)
    as Hba.
  { rewrite Hrun1. cbn [fst]. apply balance_after_credit.
    rewrite commit_new_user by done. by rewrite Hus. }
  rewrite Hrun1 in Hbr, Hba. cbn [fst] in Hbr, Hba.
  eexists _, _.
  split; [exact Hrun1|]. split; [exact Hbr|]. split; [exact Hba|].
  split; [intros Hlt; by rewrite Hbr, js_add_exact|].
  split; [intros Hlt; by rewrite Hba, js_add_exact|].
  split; [rewrite commit_referrals; apply lookup_insert_eq|].
  split; [done|]. split; [done|].
  intros id e' He'. rewrite commit_referrals, Hrs.
  rewrite lookup_insert_ne; [done|]. congruence.
Qed.

Lemma applyReferral_awards_current_settings_witness :
  (∃ db2 e,
    run (run ex_db_settings_7 (adminSettings ex_body_10)).1
        (applyReferral ex_env (ex_apply "bob" 1000 "r-1"))
    = (db2, json (BAwarded "alice" 10 7))
    ∧ balance "alice" db2 = 10 ∧ balance "bob" db2 = 7
    ∧ referrals db2 !! "r-1" = Some e
    ∧ Referral.referrerCoins e = 10 ∧ Referral.referredCoins e = 7)
  ∧ (∃ db2 e,
    run (run ex_db (adminSettings Settings.empty)).1
        (applyReferral ex_env (ex_apply "bob" 1000 "r-1"))
    = (db2, json (BAwarded "alice" 50 20))
    ∧ balance "alice" db2 = 50 ∧ balance "bob" db2 = 20
    ∧ referrals db2 !! "r-1" = Some e
    ∧ Referral.referrerCoins e = 50 ∧ Referral.referredCoins e = 20).
Proof.
  split.
  - destruct (applyReferral_awards_current_settings ex_env ex_db_settings_7
                ex_body_10 (ex_apply "bob" 1000 "r-1") "bob" "ALI-A1B2C3" "alice"
                ex_alice)
      as (db2 & e & Hrun & _ & _ & Hr & Ha & He & H1 & H2 & _);
      [first [ discriminate | vm_compute; reflexivity ]..|].
    exists db2, e. split; [exact Hrun|].
    split; [apply Hr; vm_compute; reflexivity|].
    split; [apply Ha; vm_compute; reflexivity|].
    split; [exact He|]. split; [exact H1|exact H2].
  - destruct (applyReferral_awards_current_settings ex_env ex_db
                Settings.empty (ex_apply "bob" 1000 "r-1") "bob" "ALI-A1B2C3" "alice"
                ex_alice)
      as (db2 & e & Hrun & _ & _ & Hr & Ha & He & H1 & H2 & _);
      [first [ discriminate | vm_compute; reflexivity ]..|].
    exists db2, e. split; [exact Hrun|].
    split; [apply Hr; vm_compute; reflexivity|].
    split; [apply Ha; vm_compute; reflexivity|].
    split; [exact He|]. split; [exact H1|exact H2].
Defined.

(** C9 (as stated, refuted): with [referredCoins] stored earlier, an
    update that supplies [referrerCoins] only is answered with the supplied
    field alone; the response is not the merged settings record. *)
Lemma adminSettings_echo_is_not_merged :
  (run ex_db_settings (adminSettings ex_body_10)).2
  = json (BSaved (Settings.mk (Some 10) None None))
  ∧ settings (run ex_db_settings (adminSettings ex_body_10)).1
    = Some (Settings.mk (Some 10) (Some 20) None)
  ∧ (run ex_db_settings (adminSettings ex_body_10)).2
    ≠ json (BSaved (Settings.mk (Some 10) (Some 20) None)).
Proof. vm_compute. repeat split; discriminate. Qed.

(** C9 (amended): the handler merges exactly the supplied fields into the
    stored settings and leaves the other fields, all accounts and the
    ledger as they were; a body with no field changes nothing; its answer
    is [{ success: true, saved }] where [saved] holds the supplied fields
    only. *)
Theorem adminSettings_merges_and_echoes (body : Settings.t) (db : Db) :
  ∃ db', run db (adminSettings body) = (db', json (BSaved body))
         ∧ users db' = users db
         ∧ referrals db' = referrals db
         ∧ Settings.referrerCoins (default Settings.empty (settings db'))
           = match Settings.referrerCoins body with
             | Some v => Some v
             | None => Settings.referrerCoins (default Settings.empty (settings db))
             end
         ∧ Settings.referredCoins (default Settings.empty (settings db'))
           = match Settings.referredCoins body with
             | Some v => Some v
             | None => Settings.referredCoins (default Settings.empty (settings db))
             end
         ∧ Settings.requireCompleteProfile (default Settings.empty (settings db'))
           = match Settings.requireCompleteProfile body with
             | Some v => Some v
             | None =>
                 Settings.requireCompleteProfile (default Settings.empty (settings db))
             end
         ∧ (body = Settings.empty → db' = db).
Proof.
  destruct (adminSettings_run body db) as (db' & Hrun & Hus & Hrs & Hs & _ & Hid).
  exists db'. unfold settings_updates in Hrun. rewrite settings_eta in Hrun.
  rewrite Hs. unfold merged_settings. simpl.
  repeat split; done.
Qed.

Lemma adminSettings_merges_and_echoes_witness :
  ∃ db', run ex_db_settings (adminSettings ex_body_10)
         = (db', json (BSaved ex_body_10))
         ∧ settings db' = Some (Settings.mk (Some 10) (Some 20) None).
Proof.
  destruct (adminSettings_merges_and_echoes ex_body_10 ex_db_settings)
    as (db' & Hrun & _).
  exists db'. split; [exact Hrun|].
  exact (f_equal (λ o, settings o.1) (eq_sym Hrun)).
Defined.

(** ** POST /generateReferral *)

Lemma makeReferralCode_truthy (lib : StringLib) (uid : string) (t : Z) :
  truthy_str (Some (makeReferralCode lib uid t)) = true.
Proof.
  unfold makeReferralCode, truthy_str.
  by destruct (toUpperCase lib (slice0 lib 3 uid)).
Qed.

(** A uid that cannot be part of a path: no answer, nothing read or
    written. *)
Lemma generateReferral_invalid (lib : StringLib) (rq : GenerateReq) :
  valid_path (gen_uid rq) = false →
  generateReferral lib rq = Ret unanswered.
Proof. intros Hv. unfold generateReferral. by rewrite Hv. Qed.

(** An account with a stored, non-empty code: the code is returned and
    nothing is written. *)
Lemma generateReferral_existing
    (lib : StringLib) (rq : GenerateReq) (db : Db) (u : User.t) (c : string) :
  valid_path (gen_uid rq) = true →
  users db !! gen_uid rq = Some u → User.referralCode u = Some c → c ≠ "" →
  run db (generateReferral lib rq) = (db, json (BReferralCode c))
  ∧ writes db (generateReferral lib rq) = [].
Proof.
  intros Hv Hu Hc Hne. unfold generateReferral. rewrite Hv. simpl. rewrite Hu, Hc.
  apply String.eqb_neq in Hne. unfold truthy_str. by rewrite Hne.
Qed.

(** An account without one: a code is made, stored and returned. *)
Lemma generateReferral_fresh
    (lib : StringLib) (rq : GenerateReq) (db : Db) :
  valid_path (gen_uid rq) = true →
  truthy_str (User.referralCode (default User.empty (users db !! gen_uid rq))) = false →
  let newCode := makeReferralCode lib (gen_uid rq) (gen_codeTime rq) in
  let ws := [SetUserReferralCode (gen_uid rq) newCode;
             SetUserUpdatedAt (gen_uid rq) (gen_updateTime rq)] in
  run db (generateReferral lib rq)
  = (apply_updates ws db, json (BReferralCode newCode))
  ∧ writes db (generateReferral lib rq) = [ws]
  ∧ User.referralCode <$> users (apply_updates ws db) !! gen_uid rq
    = Some (Some newCode).
Proof.
  intros Hv Hf newCode ws. unfold generateReferral. rewrite Hv. simpl.
  split; [|split].
  - destruct (users db !! gen_uid rq) as [u|]; [|done]. simpl in Hf.
    destruct (User.referralCode u) as [c|]; [|done].
    unfold truthy_str in Hf. by rewrite Hf.
  - destruct (users db !! gen_uid rq) as [u|]; [|done]. simpl in Hf.
    destruct (User.referralCode u) as [c|]; [|done].
    unfold truthy_str in Hf. by rewrite Hf.
  - unfold ws, apply_updates, upd_user. simpl.
    rewrite !lookup_insert. repeat (case_decide; try congruence). done.
Qed.

(** C7 (the code at a failing input): two requests of one account that has
    no code yet, in flight at once.  Both read the account before either
    writes, so each makes a code of its own and each issues its [update]:
    the two calls are answered with different codes, the second call does
    write, and the code the first call returned is no longer stored.
    Handled one after the other, the second call finds the stored code,
    returns it and writes nothing. *)
Theorem generateReferral_overlapped_twice :
  (interleave [0; 1]%nat ex_db ex_same_generate).2
  = [ Update [SetUserReferralCode "u1xyz" "U1X-0001ZY"; SetUserUpdatedAt "u1xyz" 1001]
        (Ret (json (BReferralCode "U1X-0001ZY")));
      Update [SetUserReferralCode "u1xyz" "U1X-0002ZY"; SetUserUpdatedAt "u1xyz" 2001]
        (Ret (json (BReferralCode "U1X-0002ZY"))) ]
  ∧ (let '(db, ps) := interleave ex_overlapped_generate ex_db ex_same_generate in
     response_of <$> ps = [ Some (json (BReferralCode "U1X-0001ZY"));
                            Some (json (BReferralCode "U1X-0002ZY")) ]
     ∧ code_of db "u1xyz" = Some "U1X-0002ZY"
     ∧ query_by_code "U1X-0001ZY" db = None)
  ∧ (let '(db, ps) := interleave ex_one_by_one_generate ex_db ex_same_generate in
     response_of <$> ps = [ Some (json (BReferralCode "U1X-0001ZY"));
                            Some (json (BReferralCode "U1X-0001ZY")) ]
     ∧ code_of db "u1xyz" = Some "U1X-0001ZY"
     ∧ writes db (generateReferral ex_lib_rev ex_generate_2) = []).
Proof. vm_compute. repeat split; reflexivity. Qed.

(** X26: handled one after the other, two calls for the same account (its
    uid a key the database admits) return the same code, and the second
    call issues no write and leaves the database as the first call left
    it.  If the account has a stored code (a non-empty one: the handler
    tests [data.referralCode] for truthiness) the handler returns it and
    writes nothing; otherwise it makes a code, stores it under the account
    and returns it. *)
Theorem generateReferral_idempotent
    (lib : StringLib) (db : Db) (uid : string) (t1 t1' t2 t2' : Z) :
  valid_key uid = true →
  let rq1 := mkGenerateReq uid t1 t1' in
  let rq2 := mkGenerateReq uid t2 t2' in
  let o1 := run db (generateReferral lib rq1) in
  let o2 := run o1.1 (generateReferral lib rq2) in
  (∃ c, o1.2 = json (BReferralCode c) ∧ o2.2 = json (BReferralCode c)
        ∧ User.referralCode <$> users o1.1 !! uid = Some (Some c))
  ∧ o2.1 = o1.1
  ∧ writes o1.1 (generateReferral lib rq2) = []
  ∧ (∀ u c, users db !! uid = Some u → User.referralCode u = Some c → c ≠ "" →
            o1 = (db, json (BReferralCode c))
            ∧ writes db (generateReferral lib rq1) = [])
  ∧ (truthy_str (User.referralCode (default User.empty (users db !! uid))) = false →
     let newCode := makeReferralCode lib uid t1 in
     o1.2 = json (BReferralCode newCode)
     ∧ writes db (generateReferral lib rq1)
       = [[SetUserReferralCode uid newCode; SetUserUpdatedAt uid t1']]
     ∧ User.referralCode <$> users o1.1 !! uid = Some (Some newCode)).
Proof.
  intros Hvk rq1 rq2 o1 o2. pose proof (valid_key_path _ Hvk) as Hv.
  assert (∃ c u1, o1.2 = json (BReferralCode c) ∧ users o1.1 !! uid = Some u1
                  ∧ User.referralCode u1 = Some c ∧ c ≠ "") as (c & u1 & Hr1 & Hu1 & Hc1 & Hne).
  { destruct (truthy_str (User.referralCode
                (default User.empty (users db !! uid)))) eqn:Ht.
    - destruct (users db !! uid) as [u|] eqn:Hu; [|done]. simpl in Ht.
      destruct (User.referralCode u) as [c|] eqn:Hc; [|done].
      assert (c ≠ "") as Hne.
      { intros ->. done. }
      destruct (generateReferral_existing lib rq1 db u c Hv Hu Hc Hne) as [Hrun _].
      exists c, u. unfold o1. by rewrite Hrun.
    - destruct (generateReferral_fresh lib rq1 db Hv Ht) as (Hrun & _ & Hl).
      cbv zeta in Hrun, Hl. unfold rq1 in Hrun, Hl. cbn [gen_uid gen_codeTime gen_updateTime] in Hrun, Hl.
      set (db1 := apply_updates _ db) in *.
      destruct (users db1 !! uid) as [u1|] eqn:Hu1; [|done].
      exists (makeReferralCode lib uid t1), u1. unfold o1, rq1. rewrite Hrun.
      simpl. simpl in Hl. repeat split; try done; [congruence|].
      intros E. pose proof (makeReferralCode_truthy lib uid t1) as Htr.
      rewrite E in Htr. done. }
  destruct (generateReferral_existing lib rq2 o1.1 u1 c Hv Hu1 Hc1 Hne)
    as [Hrun2 Hw2].
  split; [|split; [|split; [|split]]].
  - exists c. unfold o2. rewrite Hrun2, Hu1. simpl. by rewrite Hc1.
  - unfold o2. by rewrite Hrun2.
  - done.
  - intros u c' Hu Hc Hne'.
    by destruct (generateReferral_existing lib rq1 db u c' Hv Hu Hc Hne').
  - intros Ht newCode.
    destruct (generateReferral_fresh lib rq1 db Hv Ht) as (Hrun & Hw & Hl).
    unfold o1. rewrite Hrun. done.
Qed.

Lemma generateReferral_idempotent_witness :
  (run (run ex_db (generateReferral ex_lib ex_generate_1)).1
       (generateReferral ex_lib ex_generate_2)).2
  = (run ex_db (generateReferral ex_lib ex_generate_1)).2
  ∧ (run ex_db (generateReferral ex_lib ex_generate_1)).2
    = json (BReferralCode "U1X-A1B2C3")
  ∧ writes (run ex_db (generateReferral ex_lib ex_generate_1)).1
           (generateReferral ex_lib ex_generate_2) = [].
Proof.
  destruct (generateReferral_idempotent ex_lib ex_db "u1xyz" 1000 1001 2000 2001)
    as ((c & H1 & H2 & _) & _ & Hw & _ & Hfresh); [reflexivity|].
  split; [exact (eq_trans H2 (eq_sym H1))|].
  split; [exact (proj1 (Hfresh eq_refl))|exact Hw].
Defined.

(** ** GET /admin/referrals *)

Lemma created_le_total : Total created_le.
Proof.
  intros [k1 r1] [k2 r2]. unfold created_le. simpl.
  destruct (Z.lt_total (Referral.createdAt r1) (Referral.createdAt r2))
    as [?|[E|?]]; auto.
  rewrite E. destruct (key_le_total k1 k2); auto.
Qed.

Lemma created_le_trans : Transitive created_le.
Proof.
  intros [k1 r1] [k2 r2] [k3 r3]. unfold created_le. simpl.
  intros [?|[E1 L1]] [?|[E2 L2]]; try (left; lia).
  right. split; [lia|]. exact (transitivity (R := key_le) L1 L2).
Qed.

Lemma created_le_createdAt (x y : string * Referral.t) :
  created_le x y → Referral.createdAt x.2 ≤ Referral.createdAt y.2.
Proof. unfold created_le. intros [?|[? _]]; lia. Qed.

Lemma orderByChild_createdAt_sorted (m : gmap string Referral.t) :
  StronglySorted created_le (orderByChild_createdAt m).
Proof.
  pose proof created_le_total. pose proof created_le_trans.
  apply StronglySorted_merge_sort; apply _.
Qed.

Lemma orderByChild_createdAt_perm (m : gmap string Referral.t) :
  orderByChild_createdAt m ≡ₚ map_to_list m.
Proof. apply merge_sort_Permutation. Qed.

(** What [orderByChild('createdAt').limitToLast(n)] returns: [n] records
    (all of them if there are fewer), each stored in the ledger under its
    key, and none older than a record that is left out. *)
Lemma query_recent_spec (n : nat) (db : Db) :
  length (query_recent n db) = (n `min` size (referrals db))%nat
  ∧ NoDup (query_recent n db).*1
  ∧ (∀ id e, (id, e) ∈ query_recent n db → referrals db !! id = Some e)
  ∧ (∀ id e id' e',
       (id, e) ∈ query_recent n db → referrals db !! id' = Some e' →
       (id', e') ∉ query_recent n db →
       Referral.createdAt e' ≤ Referral.createdAt e).
Proof.
  unfold query_recent, limitToLast.
  set (l := orderByChild_createdAt (referrals db)).
  set (k := (length l - n)%nat).
  assert (Hperm : l ≡ₚ map_to_list (referrals db))
    by apply orderByChild_createdAt_perm.
  assert (Hlen : length l = size (referrals db))
    by (by rewrite Hperm, length_map_to_list).
  assert (Hin : ∀ id e, (id, e) ∈ l ↔ referrals db !! id = Some e).
  { intros id e. rewrite Hperm. apply elem_of_map_to_list. }
  split; [|split; [|split]].
  - rewrite length_drop. unfold k. lia.
  - rewrite fmap_drop. eapply sublist_NoDup; [|apply sublist_drop].
    rewrite Hperm. apply NoDup_fst_map_to_list.
  - intros id e He. apply Hin. eapply elem_of_sublist; [exact He|].
    apply sublist_drop.
  - intros id e id' e' He He' Hout.
    apply Hin in He'. rewrite <- (take_drop k l) in He'.
    apply elem_of_app in He' as [He'|He']; [|done].
    pose proof (orderByChild_createdAt_sorted (referrals db)) as Hs.
    fold l in Hs. rewrite <- (take_drop k l) in Hs.
    apply (created_le_createdAt (id', e') (id, e)).
    eapply StronglySorted_app_1_elem_of; eauto.
Qed.

Lemma Math_min_200_bound (x : jsnum) (z : Z) :
  Math_min_200 x = JInt z → z ≤ 200.
Proof.
  destruct x as [|y|fl| |]; simpl; try discriminate.
  - intros [= <-]. lia.
  - destruct (200 <=? fl); [|discriminate]. by intros [= <-].
  - by intros [= <-].
Qed.

(** C8 (as stated, refuted): with no limit requested and two audit
    records in the ledger, the older record comes before the newer one,
    both in the query result the handler awaits and among the keys of the
    object it sends; the listing is not newest first. *)
Lemma adminReferrals_not_most_recent_first :
  (run ex_db_ledger (adminReferrals ex_Number None)).2
  = json (BData {[ "a1" := ex_older; "b2" := ex_newer ]})
  ∧ query_recent 100 ex_db_ledger = [("a1", ex_older); ("b2", ex_newer)]
  ∧ entries_by_key {[ "a1" := ex_older; "b2" := ex_newer ]}
    = [("a1", ex_older); ("b2", ex_newer)]
  ∧ ¬ most_recent_first (query_recent 100 ex_db_ledger)
  ∧ ¬ most_recent_first (entries_by_key {[ "a1" := ex_older; "b2" := ex_newer ]}).
Proof.
  assert (Hq : query_recent 100 ex_db_ledger = [("a1", ex_older); ("b2", ex_newer)])
    by (vm_compute; reflexivity).
  assert (Hk : entries_by_key {[ "a1" := ex_older; "b2" := ex_newer ]}
               = [("a1", ex_older); ("b2", ex_newer)])
    by (vm_compute; reflexivity).
  assert (Hno : ¬ most_recent_first [("a1", ex_older); ("b2", ex_newer)]).
  { unfold most_recent_first. intros H. apply Sorted_inv in H as [_ H].
    apply HdRel_inv in H. simpl in H. lia. }
  split; [|rewrite Hq, Hk; by repeat split].
  vm_compute. reflexivity.
Qed.

(** C8 (amended): whatever limit is requested, the handler changes
    nothing.  When the requested limit (100 when none or an empty one is
    given) capped at 200 is a positive integer [n], it sends an object
    keyed by record id that holds the [n] audit records with the greatest
    [createdAt] (all records when there are fewer): at most 200 records,
    each as stored, none older than a stored record that is left out.
    Otherwise it answers 500.  The object carries no newest-first
    order. *)
Theorem adminReferrals_bounded
    (Number_str : string → jsnum) (limit : option string) (db : Db) :
  let r := requested_limit Number_str limit in
  let o := run db (adminReferrals Number_str limit) in
  o.1 = db
  ∧ (∀ n, listing_size r = Some n →
       (0 < n ≤ 200)%nat
       ∧ ∃ data : gmap string Referral.t,
           o.2 = json (BData data)
           ∧ size data = (n `min` size (referrals db))%nat
           ∧ (∀ id e, data !! id = Some e → referrals db !! id = Some e)
           ∧ (∀ id e id' e',
                data !! id = Some e → referrals db !! id' = Some e' →
                data !! id' = None →
                Referral.createdAt e' ≤ Referral.createdAt e))
  ∧ (listing_size r = None → o.2 = fail 500 "Internal error")
  ∧ (limit = None ∨ limit = Some "" → r = JInt 100)
  ∧ (∀ s, limit = Some s → s ≠ "" → r = Number_str s).
Proof.
  intros r o.
  assert (Hdata : ∀ z, 0 < z → z ≤ 200 →
            ∃ data : gmap string Referral.t,
              (run db (snap ← onceRecent (Z.to_nat z);
                       mret (json (BData (list_to_map snap))))).2
              = json (BData data)
              ∧ size data = (Z.to_nat z `min` size (referrals db))%nat
              ∧ (∀ id e, data !! id = Some e → referrals db !! id = Some e)
              ∧ (∀ id e id' e',
                   data !! id = Some e → referrals db !! id' = Some e' →
                   data !! id' = None →
                   Referral.createdAt e' ≤ Referral.createdAt e)).
  { intros z Hpos Hle.
    destruct (query_recent_spec (Z.to_nat z) db) as (Hlen & Hnd & Hsub & Hrec).
    exists (list_to_map (query_recent (Z.to_nat z) db)).
    split; [done|]. split; [by rewrite map_size_list_to_map|]. split.
    - intros id e He. apply Hsub. by apply elem_of_list_to_map.
    - intros id e id' e' He He' Hout.
      apply (Hrec id e id' e'); [by apply elem_of_list_to_map|done|].
      apply not_elem_of_list_to_map in Hout. intros Hin. apply Hout.
      apply list_elem_of_fmap. by exists (id', e'). }
  split; [|split; [|split; [|split]]].
  - unfold o, adminReferrals. destruct (Math_min_200 _) as [|z|fl| |]; try done.
    by destruct (0 <? z).
  - intros n Hn. unfold o, adminReferrals. fold r.
    destruct r as [|z|fl| |]; simpl in Hn |- *; try discriminate.
    + destruct (Z.ltb_spec 0 z) as [Hpos|]; [|discriminate]. injection Hn as <-.
      destruct (Z.ltb_spec 0 (Z.min 200 z)); [|lia].
      split; [lia|]. apply Hdata; lia.
    + destruct (Z.leb_spec 200 fl); [|discriminate]. injection Hn as <-.
      split; [lia|]. apply (Hdata 200); lia.
    + injection Hn as <-. split; [lia|]. apply (Hdata 200); lia.
  - intros Hn. unfold o, adminReferrals. fold r.
    destruct r as [|z|fl| |]; simpl in Hn |- *; try done.
    + destruct (Z.ltb_spec 0 z) as [Hpos|]; [discriminate|].
      by destruct (Z.ltb_spec 0 (Z.min 200 z)); [lia|].
    + by destruct (Z.leb_spec 200 fl).
  - unfold r. by intros [-> | ->].
  - unfold r. intros s -> Hs. simpl. apply String.eqb_neq in Hs. by rewrite Hs.
Qed.

Lemma adminReferrals_bounded_witness :
  size (referrals ex_db_long_ledger) = 201%nat
  ∧ ∃ data : gmap string Referral.t,
      (run ex_db_long_ledger (adminReferrals ex_Number (Some "500"))).2
      = json (BData data)
      ∧ size data = 200%nat.
Proof.
  assert (Hsz : size (referrals ex_db_long_ledger) = 201%nat)
    by (vm_compute; reflexivity).
  split; [exact Hsz|].
  destruct (adminReferrals_bounded ex_Number (Some "500") ex_db_long_ledger)
    as (_ & Hdata & _).
  destruct (Hdata 200%nat eq_refl) as (_ & data & Hrun & Hsize & _).
  exists data. split; [exact Hrun|]. rewrite Hsize, Hsz. reflexivity.
Defined.

(** ** POST /applyReferral: requests in flight at once *)

(** X25: a request of a stored account that has redeemed (its
    [referralAppliedAt] is set to a time other than 0), the uid being a
    key the database admits, is answered 409 "Referral already applied"
    and changes nothing, whatever code it carries: one read, no write. *)
Theorem applyReferral_second_call
    (env : Env) (rq : ApplyReq) (db : Db) (a code : string) :
  valid_key a = true →
  has_redeemed a db = true →
  newUid rq = Some a → tokenUid rq = a →
  usedReferralCode rq = Some code → code ≠ "" →
  run db (applyReferral env rq) = (db, fail 409 "Referral already applied")
  ∧ writes db (applyReferral env rq) = [].
Proof.
  intros Hv Happ Hn Ht Hc Hcode. unfold has_redeemed in Happ.
  unfold applyReferral. rewrite Hn, Hc, Ht.
  rewrite (valid_key_truthy _ Hv), String.eqb_refl. simpl.
  apply String.eqb_neq in Hcode. rewrite Hcode, (valid_key_path _ Hv). simpl.
  by rewrite Happ.
Qed.



(** C1 (the code at a failing input): two requests of the same account
    that overlap both pass the already-applied check before either
    writes; both are answered 200 and the ledger ends with two records
    whose [referredUid] is that account.  Handled one after the other,
    the second is answered 409 and the ledger holds one record. *)
Theorem applyReferral_double_redemption :
  (let '(db, ps) := interleave ex_overlapped ex_db ex_same_account in
   response_of <$> ps = [ Some (json (BAwarded "alice" 50 20));
                          Some (json (BAwarded "alice" 50 20)) ]
   ∧ ledger_entries_for "bob" db = 2%nat)
  ∧ (let '(db, ps) := interleave ex_one_by_one ex_db ex_same_account in
     response_of <$> ps = [ Some (json (BAwarded "alice" 50 20));
                            Some (fail 409 "Referral already applied") ]
     ∧ ledger_entries_for "bob" db = 1%nat).
Proof. vm_compute. repeat split; reflexivity. Qed.

(** C2 (the code at a failing input): two accounts redeem the code of the
    same referrer in overlapping requests; both are answered 200 with a
    referrer award of 50, yet the referrer's balance ends at 50, not 100:
    each request writes the balance it read plus 50.  Handled one after
    the other the balance ends at 100. *)
Theorem applyReferral_lost_referrer_update :
  (let '(db, ps) := interleave ex_overlapped ex_db ex_same_referrer in
   response_of <$> ps = [ Some (json (BAwarded "alice" 50 20));
                          Some (json (BAwarded "alice" 50 20)) ]
   ∧ balance "alice" ex_db = 0
   ∧ balance "alice" db = 50)
  ∧ (let '(db, ps) := interleave ex_one_by_one ex_db ex_same_referrer in
     response_of <$> ps = [ Some (json (BAwarded "alice" 50 20));
                            Some (json (BAwarded "alice" 50 20)) ]
     ∧ balance "alice" db = 100).
Proof. vm_compute. repeat split; reflexivity. Qed.

(** ** The middlewares *)

Lemma strip_prefix_spec (p s t : string) :
  strip_prefix p s = Some t ↔ s = p +:+ t.
Proof.
  revert s. induction p as [|a p IH]; intros s; simpl.
  - split; [by intros [= ->]|by intros ->].
  - destruct s as [|b s]; [split; intros; discriminate|].
    destruct (Ascii.eqb_spec a b) as [->|Hne].
    + rewrite IH. split; [by intros ->|by intros [= ->]].
    + split; [discriminate|]. intros [= E _]. by destruct Hne.
Qed.

Lemma no_line_terminator_spec (s : string) :
  no_line_terminator s = true
  ↔ Forall (λ c, c ≠ "010"%char ∧ c ≠ "013"%char) (list_ascii_of_string s).
Proof.
  induction s as [|c s IH]; simpl.
  - split; [constructor|done].
  - rewrite andb_true_iff, IH, Forall_cons. unfold is_line_terminator.
    rewrite negb_true_iff, orb_false_iff.
    destruct (Ascii.eqb_spec c "010"), (Ascii.eqb_spec c "013");
      intuition congruence.
Qed.

(** X1: the Authorization header is accepted exactly when it is the text
    "Bearer " followed by a non-empty token without a line break, and the
    token handed to the verifier is everything after that prefix. *)
Theorem bearer_token_spec (auth t : string) :
  bearer_token auth = Some t
  ↔ auth = "Bearer " +:+ t ∧ t ≠ ""
    ∧ Forall (λ c, c ≠ "010"%char ∧ c ≠ "013"%char) (list_ascii_of_string t).
Proof.
  unfold bearer_token. rewrite <- no_line_terminator_spec. split.
  - destruct (strip_prefix "Bearer " auth) as [t'|] eqn:E; [|done].
    apply strip_prefix_spec in E.
    destruct (String.eqb_spec t' ""); [done|]. simpl.
    destruct (no_line_terminator t') eqn:Hl; [|done]. by intros [= <-].
  - intros (-> & Hne & Hl).
    assert (strip_prefix "Bearer " ("Bearer " +:+ t) = Some t) as ->
      by (by apply strip_prefix_spec).
    apply String.eqb_neq in Hne. by rewrite Hne, Hl.
Qed.

Lemma bearer_token_spec_witness :
  bearer_token "Bearer tok-bob" = Some "tok-bob"
  ∧ bearer_token "bearer tok-bob" = None
  ∧ bearer_token "Bearer " = None.
Proof.
  split; [|split; reflexivity].
  apply (proj2 (bearer_token_spec "Bearer tok-bob" "tok-bob")).
  split; [reflexivity|]. split; [discriminate|].
  repeat constructor; discriminate.
Defined.

(** X2: a protected route reaches its handler only with a well-formed
    header whose token the verifier accepts, and then runs it with the
    decoded token; every other request is answered 401 before any database
    operation, so the database is left as it was. *)
Theorem verifyToken_gate
    (verifyIdToken : string → option Token.t) (authorization : option string)
    (next : Token.t → prog Response) :
  (∀ t decoded, bearer_token (default "" authorization) = Some t →
                verifyIdToken t = Some decoded →
                verifyToken verifyIdToken authorization next = next decoded)
  ∧ ((∀ t, bearer_token (default "" authorization) = Some t →
           verifyIdToken t = None) →
     ∃ msg, verifyToken verifyIdToken authorization next = Ret (fail 401 msg)
            ∧ ∀ db, run db (verifyToken verifyIdToken authorization next)
                    = (db, fail 401 msg)).
Proof.
  unfold verifyToken. split.
  - by intros t decoded -> ->.
  - intros Hrej. destruct (bearer_token (default "" authorization)) as [t|].
    + rewrite (Hrej t eq_refl). eauto.
    + eauto.
Qed.

Lemma verifyToken_gate_witness :
  (∀ db, run db (POST_applyReferral ex_verifyIdToken ex_env
                   (Some "Bearer tok-eve") (Some "bob") (Some "ALI-A1B2C3") 1000 "r-1")
         = (db, fail 401 "Invalid ID token"))
  ∧ (∀ db, run db (POST_applyReferral ex_verifyIdToken ex_env
                     None (Some "bob") (Some "ALI-A1B2C3") 1000 "r-1")
           = (db, fail 401 "Missing Authorization header"))
  ∧ POST_applyReferral ex_verifyIdToken ex_env
      (Some "Bearer tok-bob") (Some "bob") (Some "ALI-A1B2C3") 1000 "r-1"
    = applyReferral ex_env (ex_apply "bob" 1000 "r-1").
Proof.
  split; [|split].
  - destruct (proj2 (verifyToken_gate ex_verifyIdToken (Some "Bearer tok-eve")
                       (λ user, applyReferral ex_env
                          (mkApplyReq (Token.uid user) (Some "bob")
                             (Some "ALI-A1B2C3") 1000 "r-1"))))
      as (msg & Heq & Hrun).
    + intros t [= <-]. reflexivity.
    + unfold POST_applyReferral. rewrite Heq. intros db. simpl.
      injection Heq as <-. reflexivity.
  - reflexivity.
  - exact (proj1 (verifyToken_gate ex_verifyIdToken (Some "Bearer tok-bob")
                    (λ user, applyReferral ex_env
                       (mkApplyReq (Token.uid user) (Some "bob")
                          (Some "ALI-A1B2C3") 1000 "r-1")))
             "tok-bob" (Token.mk "bob" false false) eq_refl eq_refl).
Defined.

Lemma split_comma_nonempty (s : string) : split_comma s ≠ [].
Proof.
  destruct s as [|c s]; simpl; [done|].
  destruct (Ascii.eqb c ","); [done|]. by destruct (split_comma s).
Qed.

Lemma split_comma_plain (u : string) :
  ","%char ∉ list_ascii_of_string u → split_comma u = [u].
Proof.
  induction u as [|c u IH]; simpl; [done|].
  rewrite not_elem_of_cons. intros [Hc Hu].
  destruct (Ascii.eqb_spec c ","); [congruence|]. by rewrite IH.
Qed.

Lemma split_comma_app (u rest : string) :
  ","%char ∉ list_ascii_of_string u →
  split_comma (u +:+ "," +:+ rest) = u :: split_comma rest.
Proof.
  induction u as [|c u IH]; simpl; [done|].
  rewrite not_elem_of_cons. intros [Hc Hu].
  destruct (Ascii.eqb_spec c ","); [congruence|]. by rewrite IH.
Qed.

Lemma split_comma_concat (uids : list string) :
  uids ≠ [] →
  Forall (λ u, ","%char ∉ list_ascii_of_string u) uids →
  split_comma (String.concat "," uids) = uids.
Proof.
  induction uids as [|u [|v uids] IH]; [done| |]; intros _ Hall.
  - simpl. apply split_comma_plain. by apply Forall_inv in Hall.
  - apply Forall_cons in Hall as [Hu Hrest].
    change (String.concat "," (u :: v :: uids))
      with (u +:+ "," +:+ String.concat "," (v :: uids)).
    rewrite split_comma_app by done. f_equal. by apply IH.
Qed.

(** X3: the admin list is the comma-separated list of the environment
    variable with empty entries dropped: a list of non-empty, comma-free
    uids joined with commas is read back as it was, an unset or empty
    variable gives no admin, and the empty uid is never on the list. *)
Theorem ADMIN_UIDS_round_trip (uids : list string) (env_value : option string) :
  (Forall (λ u, u ≠ "" ∧ ","%char ∉ list_ascii_of_string u) uids →
   ADMIN_UIDS (Some (String.concat "," uids)) = uids)
  ∧ ADMIN_UIDS None = []
  ∧ ADMIN_UIDS (Some "") = []
  ∧ "" ∉ ADMIN_UIDS env_value.
Proof.
  split; [|split; [done|split; [done|]]].
  - intros Hall. unfold ADMIN_UIDS. simpl.
    destruct uids as [|u uids]; [done|].
    rewrite split_comma_concat; [|done|].
    + apply forallb_filter_id, forallb_forall. intros x Hx%list_elem_of_In.
      rewrite Forall_forall in Hall. destruct (Hall x Hx) as [Hne _].
      by apply String.eqb_neq in Hne as ->.
    + eapply Forall_impl; [exact Hall|]. by intros x [_ ?].
  - unfold ADMIN_UIDS. intros Hin%list_elem_of_In%filter_In. by destruct Hin.
Qed.

Lemma ADMIN_UIDS_round_trip_witness :
  ADMIN_UIDS (Some "root,ops") = ["root"; "ops"].
Proof.
  apply (proj1 (ADMIN_UIDS_round_trip ["root"; "ops"] None)).
  repeat constructor; try discriminate; vm_compute;
    intros H; repeat (apply elem_of_cons in H as [H|H]; [discriminate|]);
    by apply elem_of_nil in H.
Defined.

(** X4: the admin gate lets a request through exactly when its token has
    a non-empty uid and that uid is on the admin list or the token carries
    the claim [admin] or [isAdmin]; every other request is answered 403
    before any database operation.  The second test of [admin] in the
    source never decides anything. *)
Theorem requireAdmin_gate (admins : list string) (user : Token.t)
    (next : prog Response) :
  let allowed :=
    Token.uid user ≠ ""
    ∧ (Token.uid user ∈ admins ∨ Token.admin user = true
       ∨ Token.isAdmin user = true) in
  (allowed → requireAdmin admins user next = next)
  ∧ (¬ allowed →
     ∃ msg, requireAdmin admins user next = Ret (fail 403 msg)
            ∧ ∀ db, run db (requireAdmin admins user next) = (db, fail 403 msg)).
Proof.
  intros allowed. unfold allowed, requireAdmin, truthy_str.
  destruct (String.eqb_spec (Token.uid user) "") as [E|E]; simpl.
  - split; [by intros [? _]|]. eauto.
  - destruct (bool_decide_reflect (Token.uid user ∈ admins)) as [Hin|Hin];
      destruct (Token.admin user), (Token.isAdmin user); simpl; split;
      try (intros [_ [?|[?|?]]]; done); try done;
      intros Hno; try (destruct Hno; by auto); eauto.
Qed.

Lemma requireAdmin_gate_witness :
  (∀ db body, run db (POST_admin_settings_referral ex_verifyIdToken ["ops"]
                        (Some "Bearer tok-bob") body)
              = (db, fail 403 "Admin only"))
  ∧ (∀ body, POST_admin_settings_referral ex_verifyIdToken ["ops"]
               (Some "Bearer tok-root") body
             = adminSettings body).
Proof.
  split.
  - intros db body.
    destruct (proj2 (requireAdmin_gate ["ops"] (Token.mk "bob" false false)
                       (adminSettings body))) as (msg & Heq & Hrun).
    + intros [_ [Hin|[H|H]]];
        [ apply list_elem_of_singleton in Hin; discriminate Hin
        | discriminate H | discriminate H ].
    + change (POST_admin_settings_referral ex_verifyIdToken ["ops"]
                (Some "Bearer tok-bob") body)
        with (requireAdmin ["ops"] (Token.mk "bob" false false) (adminSettings body)).
      rewrite Hrun. injection Heq as <-. reflexivity.
  - intros body.
    change (POST_admin_settings_referral ex_verifyIdToken ["ops"]
              (Some "Bearer tok-root") body)
      with (requireAdmin ["ops"] (Token.mk "root" false true) (adminSettings body)).
    apply (requireAdmin_gate ["ops"] (Token.mk "root" false true)
             (adminSettings body)).
    split; [discriminate|]. right; right; reflexivity.
Defined.

(** ** makeReferralCode *)

Lemma upper_ascii_idemp (c : ascii) : upper_ascii (upper_ascii c) = upper_ascii c.
Proof. destruct c as [[|] [|] [|] [|] [|] [|] [|] [|]]; reflexivity. Qed.

Lemma upper_ascii_is_ascii (c : ascii) :
  (nat_of_ascii c <? 128)%nat = true → (nat_of_ascii (upper_ascii c) <? 128)%nat = true.
Proof. destruct c as [[|] [|] [|] [|] [|] [|] [|] [|]]; intros H; exact H || reflexivity. Qed.

Lemma ascii_toUpperCase_idemp (s : string) :
  ascii_toUpperCase (ascii_toUpperCase s) = ascii_toUpperCase s.
Proof. induction s as [|c s IH]; simpl; [done|]. by rewrite upper_ascii_idemp, IH. Qed.

Lemma ascii_toUpperCase_app (s1 s2 : string) :
  ascii_toUpperCase (s1 +:+ s2) = ascii_toUpperCase s1 +:+ ascii_toUpperCase s2.
Proof. induction s1 as [|c s1 IH]; simpl; [done|]. by rewrite IH. Qed.

Lemma ascii_toUpperCase_length (s : string) :
  String.length (ascii_toUpperCase s) = String.length s.
Proof. induction s as [|c s IH]; simpl; [done|]. by rewrite IH. Qed.

Lemma ascii_slice0_length (n : nat) (s : string) :
  String.length (ascii_slice0 n s) = (n `min` String.length s)%nat.
Proof.
  unfold ascii_slice0. revert s. induction n as [|n IH]; intros [|c s]; simpl; auto.
Qed.

Lemma string_app_length (s1 s2 : string) :
  String.length (s1 +:+ s2) = (String.length s1 + String.length s2)%nat.
Proof. induction s1 as [|c s1 IH]; simpl; [done|]. by rewrite IH. Qed.

Lemma string_get_app_r (s1 s2 : string) :
  String.get (String.length s1) (s1 +:+ s2) = String.get 0 s2.
Proof. induction s1 as [|c s1 IH]; simpl; [done|]. exact IH. Qed.

Lemma ascii_slice0_app_l (s1 s2 : string) :
  ascii_slice0 (String.length s1) (s1 +:+ s2) = s1.
Proof.
  unfold ascii_slice0. induction s1 as [|c s1 IH]; simpl.
  - by destruct s2.
  - by rewrite IH.
Qed.

Lemma is_ascii_app (s1 s2 : string) :
  is_ascii s1 = true → is_ascii s2 = true → is_ascii (s1 +:+ s2) = true.
Proof.
  intros H1 H2. induction s1 as [|c s1 IH]; simpl in *; [done|].
  apply andb_true_iff in H1 as [Hc H1]. rewrite Hc. simpl. by apply IH.
Qed.

Lemma is_ascii_slice0 (n : nat) (s : string) :
  is_ascii s = true → is_ascii (ascii_slice0 n s) = true.
Proof.
  unfold ascii_slice0. revert s.
  induction n as [|n IH]; intros [|c s] H; simpl in *; try done.
  apply andb_true_iff in H as [Hc H]. rewrite Hc. simpl. by apply IH.
Qed.

Lemma is_ascii_toUpperCase (s : string) :
  is_ascii s = true → is_ascii (ascii_toUpperCase s) = true.
Proof.
  induction s as [|c s IH]; simpl; [done|]. intros H.
  apply andb_true_iff in H as [Hc H].
  by rewrite (upper_ascii_is_ascii c Hc), IH.
Qed.

(** X5: the shape of a generated code on ASCII text, whatever the hash.
    When the uid and the hash text are ASCII, and the runtime's
    [toUpperCase] and [slice] treat ASCII text as the language
    prescribes, the code is the first three characters of the uid (fewer
    if the uid is shorter) in upper case, a dash, then at most six
    upper-cased hash characters; at most ten characters in all, exactly
    ten when the uid has three characters or more and the hash text six
    or more; upper-casing the code changes nothing. *)
Theorem makeReferralCode_format
    (lib : StringLib) (uid : string) (date_now : Z) :
  ascii_conforming lib →
  is_ascii uid = true →
  is_ascii (sha1_hex lib (uid +:+ pretty date_now)) = true →
  let code := makeReferralCode lib uid date_now in
  let p := (3 `min` String.length uid)%nat in
  code = ascii_toUpperCase (ascii_slice0 3 uid) +:+ "-"
         +:+ ascii_toUpperCase (ascii_slice0 6 (sha1_hex lib (uid +:+ pretty date_now)))
  ∧ slice0 lib p code = ascii_toUpperCase (ascii_slice0 3 uid)
  ∧ String.get p code = Some "-"%char
  ∧ (p + 1 ≤ String.length code ≤ 10)%nat
  ∧ toUpperCase lib code = code
  ∧ ((3 ≤ String.length uid)%nat →
     (6 ≤ String.length (sha1_hex lib (uid +:+ pretty date_now)))%nat →
     String.length code = 10%nat).
Proof.
  intros Hlib Hu Hhash code p.
  set (pre := ascii_toUpperCase (ascii_slice0 3 uid)).
  set (h := ascii_toUpperCase
              (ascii_slice0 6 (sha1_hex lib (uid +:+ pretty date_now)))).
  assert (Hcode : code = pre +:+ "-" +:+ h).
  { unfold code, makeReferralCode, pre, h.
    rewrite (proj2 (Hlib _ Hu)), (proj2 (Hlib _ Hhash)).
    by rewrite (proj1 (Hlib _ (is_ascii_slice0 3 _ Hu))),
               (proj1 (Hlib _ (is_ascii_slice0 6 _ Hhash))). }
  assert (Hascii : is_ascii code = true).
  { rewrite Hcode. apply is_ascii_app; [|apply is_ascii_app; [done|]].
    - by apply is_ascii_toUpperCase, is_ascii_slice0.
    - by apply is_ascii_toUpperCase, is_ascii_slice0. }
  assert (Hpre : String.length pre = p)
    by (unfold pre, p; by rewrite ascii_toUpperCase_length, ascii_slice0_length).
  assert (Hh : (String.length h ≤ 6)%nat)
    by (unfold h; rewrite ascii_toUpperCase_length, ascii_slice0_length; lia).
  split; [exact Hcode|].
  rewrite (proj2 (Hlib _ Hascii)), (proj1 (Hlib _ Hascii)).
  clearbody code. subst code.
  split; [|split; [|split; [|split]]].
  - rewrite <- Hpre. apply ascii_slice0_app_l.
  - rewrite <- Hpre. by rewrite string_get_app_r.
  - rewrite !string_app_length, Hpre. simpl. unfold p. lia.
  - rewrite !ascii_toUpperCase_app. unfold pre, h.
    by rewrite !ascii_toUpperCase_idemp.
  - intros Hu3 Hs. rewrite !string_app_length, Hpre. simpl.
    unfold h. rewrite ascii_toUpperCase_length, ascii_slice0_length. unfold p. lia.
Qed.

Lemma makeReferralCode_format_witness :
  makeReferralCode ex_lib "u1xyz" 1000 = "U1X-A1B2C3"
  ∧ String.length (makeReferralCode ex_lib "u1xyz" 1000) = 10%nat.
Proof.
  destruct (makeReferralCode_format ex_lib "u1xyz" 1000)
    as (Hcode & _ & _ & _ & _ & Hlen);
    [by intros s _ | reflexivity | reflexivity |].
  split; [exact Hcode|]. apply Hlen; vm_compute; lia.
Defined.

(** ** The code lookup, in full *)

Lemma holders_elem (code : string) (db : Db) (k : string) (u : User.t) :
  (k, u) ∈ List.filter (holds_code code) (map_to_list (users db))
  ↔ holder code db k u.
Proof.
  rewrite list_elem_of_In, filter_In, <- list_elem_of_In, elem_of_map_to_list.
  unfold holder, holds_code. simpl. rewrite andb_true_iff.
  destruct (User.referralCode u) as [c|]; [|intuition congruence].
  destruct (String.eqb_spec c code); intuition congruence.
Qed.

Lemma first_key_foldr_least (l : list (string * User.t)) (e : string * User.t) :
  foldr first_key None l = Some e → ∀ x, x ∈ l → key_le e.1 x.1.
Proof.
  revert e. induction l as [|y l IH]; intros e; simpl; [done|].
  unfold first_key at 1.
  destruct (foldr first_key None l) as [e'|] eqn:E.
  - destruct (key_leb y.1 e'.1) eqn:Hle; intros [= <-] x Hx;
      apply elem_of_cons in Hx as [->|Hx].
    + reflexivity.
    + transitivity e'.1; [unfold key_le; by rewrite Hle|by apply IH].
    + destruct (key_le_total e'.1 y.1) as [?|Hyx]; [done|].
      unfold key_le in Hyx. by rewrite Hle in Hyx.
    + by apply IH.
  - destruct l as [|z l].
    + intros [= <-] x Hx. apply list_elem_of_singleton in Hx as ->. reflexivity.
    + destruct (first_key_foldr_nonempty (z :: l)) as [? Hs]; [done|].
      rewrite E in Hs. discriminate.
Qed.

Lemma query_by_code_holder (code : string) (db : Db) (k : string) (u : User.t) :
  query_by_code code db = Some (k, u) → holder code db k u.
Proof.
  intros Hq. split; [by eapply query_by_code_valid|].
  by apply query_by_code_Some.
Qed.

(** The lookup yields the holder of the code whose key is least. *)
Lemma query_by_code_iff (code : string) (db : Db) (k : string) (u : User.t) :
  query_by_code code db = Some (k, u)
  ↔ holder code db k u ∧ ∀ k' u', holder code db k' u' → key_le k k'.
Proof.
  split.
  - intros Hq. split; [by apply query_by_code_holder|].
    intros k' u' Hh. apply holders_elem in Hh.
    by apply (first_key_foldr_least _ _ Hq (k', u')).
  - intros [Hh Hleast].
    destruct (query_by_code_found code db k u Hh) as [[k0 u0] Hq].
    assert (holder code db k0 u0) as Hh0 by (by apply query_by_code_holder).
    assert (key_le k0 k) as H1.
    { apply (first_key_foldr_least _ _ Hq (k, u)). by apply holders_elem. }
    pose proof (Hleast k0 u0 Hh0) as H2.
    assert (k0 = k) as -> by (by apply (anti_symm key_le)).
    destruct Hh0 as (_ & Hu0 & _), Hh as (_ & Hu & _). congruence.
Qed.

Lemma query_by_code_None_iff (code : string) (db : Db) :
  query_by_code code db = None ↔ ∀ k u, ¬ holder code db k u.
Proof.
  split.
  - intros Hq k u Hh.
    destruct (query_by_code_found code db k u Hh) as [? ?]. congruence.
  - apply query_by_code_None.
Qed.

(** X6: the code lookup shared by GET /referral/:code and POST
    /applyReferral is decided by the stored accounts alone: it finds
    nothing exactly when no account holds the code, and otherwise yields
    the holder whose uid comes first in the order the database keeps
    children with equal values in (keys that read as 32-bit integers
    first, by value; then the other keys as texts), so that a code held by
    one account resolves to that account. *)
Theorem query_by_code_least (code : string) (db : Db) :
  (query_by_code code db = None ↔ ∀ k u, ¬ holder code db k u)
  ∧ (∀ k u, query_by_code code db = Some (k, u)
            ↔ holder code db k u
              ∧ ∀ k' u', holder code db k' u' → key_le k k')
  ∧ (∀ k u, holder code db k u →
            (∀ k' u', holder code db k' u' → k' = k) →
            query_by_code code db = Some (k, u))
  ∧ (∀ k k' : string, key_le k k' ↔
       match tryParseInt k, tryParseInt k' with
       | Some x, Some y =>
           x < y ∨ (x = y ∧ ((String.length k < String.length k')%nat
                             ∨ (String.length k = String.length k'
                                ∧ String.le k k')))
       | Some _, None => True
       | None, Some _ => False
       | None, None => String.le k k'
       end).
Proof.
  split; [apply query_by_code_None_iff|]. split; [apply query_by_code_iff|].
  split; [intros k u Hh Hsole; by apply query_by_code_sole_holder|].
  intros k k'. unfold key_le, key_leb, String.le.
  destruct (tryParseInt k) as [x|], (tryParseInt k') as [y|]; try done.
  rewrite orb_True, andb_True, orb_True, andb_True.
  rewrite !Is_true_true, Z.ltb_lt, Z.eqb_eq, Nat.ltb_lt, Nat.eqb_eq. done.
Qed.

Lemma query_by_code_least_witness :
  query_by_code "ALI-A1B2C3" ex_db_numbered = Some ("9", ex_alice).
Proof.
  apply (proj1 (proj2 (query_by_code_least "ALI-A1B2C3" ex_db_numbered))).
  split; [repeat split; reflexivity|].
  intros k' u' (_ & Hu & _). unfold ex_db_numbered in Hu. simpl in Hu.
  apply lookup_insert_Some in Hu as [[<- _]|[_ Hu]]; [done|].
  apply lookup_singleton_Some in Hu as [<- _]. done.
Defined.

(** ** GET /referral/:code *)

(** X7: the preview route only reads: it issues no write and leaves the
    database as it was.  It answers 404 exactly when no account holds the
    code, and otherwise answers with the uid of the first holder in the
    database's key order and that account's display name ([null] when it
    has none or an empty one). *)
Theorem getReferral_spec (code : string) (db : Db) :
  (run db (getReferral code)).1 = db
  ∧ writes db (getReferral code) = []
  ∧ ((run db (getReferral code)).2 = fail 404 "Referral code not found"
     ↔ ∀ k u, ¬ holder code db k u)
  ∧ (∀ k u, holder code db k u →
            (∀ k' u', holder code db k' u' → key_le k k') →
            (run db (getReferral code)).2
            = json (BReferralInfo k (str_or_null (User.displayName u)))).
Proof.
  unfold getReferral. simpl.
  destruct (query_by_code code db) as [[k0 u0]|] eqn:Hq; simpl.
  - split; [done|]. split; [done|]. split.
    + split; [discriminate|]. intros Hno.
      apply query_by_code_None_iff in Hno. congruence.
    + intros k u Hh Hleast.
      assert (query_by_code code db = Some (k, u)) as Hq'
        by (by apply query_by_code_iff).
      congruence.
  - split; [done|]. split; [done|]. split.
    + split; [|done]. intros _. by apply query_by_code_None_iff.
    + intros k u Hh _.
      by destruct (proj1 (query_by_code_None_iff code db) Hq k u).
Qed.

Lemma getReferral_spec_witness :
  (run ex_db_numbered (getReferral "ALI-A1B2C3")).2
  = json (BReferralInfo "9" (Some "Alice")).
Proof.
  destruct (getReferral_spec "ALI-A1B2C3" ex_db_numbered) as (_ & _ & _ & Hfound).
  apply (Hfound "9" ex_alice).
  - repeat split; reflexivity.
  - intros k' u' (_ & Hu & _). unfold ex_db_numbered in Hu. simpl in Hu.
    apply lookup_insert_Some in Hu as [[<- _]|[_ Hu]]; [done|].
    apply lookup_singleton_Some in Hu as [<- _]. done.
Defined.

(** X8: the preview and the redemption agree on the referrer: when GET
    /referral/:code shows account [k] for a code, a well-formed request
    of another account [a] (its uid a key the database admits) that has
    not redeemed yet and uses that code is answered 200 with [k] as the
    referrer, and it is [k]'s balance that grows by the referrer award
    (as numbers are added, exactly below 2^53). *)
Theorem getReferral_agrees_with_applyReferral
    (env : Env) (rq : ApplyReq) (db : Db) (a code k : string)
    (dn : option string) :
  newUid rq = Some a → tokenUid rq = a → valid_key a = true →
  usedReferralCode rq = Some code → code ≠ "" →
  has_redeemed a db = false →
  (run db (getReferral code)).2 = json (BReferralInfo k dn) → k ≠ a →
  ∃ db' c1 c2,
    run db (applyReferral env rq) = (db', json (BAwarded k c1 c2))
    ∧ balance k db' = js_add (balance k db) c1
    ∧ (Z.abs (balance k db + c1) < 2 ^ 53 → balance k db' = balance k db + c1).
Proof.
  intros Hn Ht Ha Hc Hcode Happ Hget Hne.
  unfold getReferral in Hget. simpl in Hget.
  destruct (query_by_code code db) as [[k0 u0]|] eqn:Hq; [|discriminate].
  simpl in Hget. injection Hget as <- _.
  destruct (query_by_code_Some _ _ _ _ Hq) as [Hu _].
  pose proof (applyReferral_success env rq db a code k0 u0 Hn Ht
                (valid_key_nonempty _ Ha) (valid_key_path _ Ha) Hc Hcode
                Happ Hq Hne) as Hrun.
  cbv zeta in Hrun.
  set (c1 := award (Settings.referrerCoins (default Settings.empty (settings db)))
                   (DEFAULT_REFERRER_COINS env) 50) in *.
  assert (balance k0 (run db (applyReferral env rq)).1 = js_add (balance k0 db) c1)
    as Hb.
  { rewrite Hrun. cbn [fst]. apply balance_after_credit.
    rewrite commit_referrer by done. by rewrite Hu. }
  rewrite Hrun in Hb. cbn [fst] in Hb.
  eexists _, _, _. split; [exact Hrun|]. split; [exact Hb|].
  intros Hlt. by rewrite Hb, js_add_exact.
Qed.

Lemma getReferral_agrees_with_applyReferral_witness :
  ∃ db' c1 c2,
    run ex_db (applyReferral ex_env (ex_apply "bob" 1000 "r-1"))
    = (db', json (BAwarded "alice" c1 c2))
    ∧ balance "alice" db' = js_add (balance "alice" ex_db) c1
    ∧ (Z.abs (balance "alice" ex_db + c1) < 2 ^ 53 →
       balance "alice" db' = balance "alice" ex_db + c1).
Proof.
  apply (getReferral_agrees_with_applyReferral ex_env (ex_apply "bob" 1000 "r-1")
           ex_db "bob" "ALI-A1B2C3" "alice" (Some "Alice"));
    first [ discriminate | vm_compute; reflexivity ].
Defined.

(** ** POST /applyReferral: what a request can do *)

Lemma applyReferral_error_keeps_db
    (env : Env) (rq : ApplyReq) (db : Db) :
  (run db (applyReferral env rq)).2 ∈ validation_errors →
  (run db (applyReferral env rq)).1 = db.
Proof.
  intros Herr. apply fail_fast_run; [apply applyReferral_fail_fast|].
  intros H200. unfold validation_errors in Herr.
  destruct (run db (applyReferral env rq)) as [db' r]. simpl in *.
  set_unfold in Herr.
  destruct Herr as [->|[->|[->|[->|[->|[]]]]]]; discriminate H200.
Qed.

(** Every request handled alone either fails validation and changes
    nothing, or is well formed, finds a referrer other than the caller,
    and commits the one multi-path update. *)
Lemma applyReferral_cases (env : Env) (rq : ApplyReq) (db : Db) :
  ((run db (applyReferral env rq)).1 = db
   ∧ ((run db (applyReferral env rq)).2 ∈ validation_errors
      ∨ (run db (applyReferral env rq)).2 = fail 500 "Internal error applying referral"))
  ∨ ∃ a code r ru,
      newUid rq = Some a ∧ tokenUid rq = a ∧ a ≠ "" ∧ valid_path a = true
      ∧ usedReferralCode rq = Some code ∧ code ≠ ""
      ∧ has_redeemed a db = false
      ∧ query_by_code code db = Some (r, ru) ∧ r ≠ a
      ∧ run db (applyReferral env rq)
        = (apply_updates
             (referral_updates a code (default User.empty (users db !! a)) r ru
                (award (Settings.referrerCoins (default Settings.empty (settings db)))
                       (DEFAULT_REFERRER_COINS env) 50)
                (award (Settings.referredCoins (default Settings.empty (settings db)))
                       (DEFAULT_REFERRED_COINS env) 20)
                (now rq) (referralId rq)) db,
           json (BAwarded r
                   (award (Settings.referrerCoins (default Settings.empty (settings db)))
                          (DEFAULT_REFERRER_COINS env) 50)
                   (award (Settings.referredCoins (default Settings.empty (settings db)))
                          (DEFAULT_REFERRED_COINS env) 20))).
Proof.
  destruct (applyReferral_outcomes env rq db) as [H200|Herr].
  2: { left. split; [|done].
       apply fail_fast_run; [apply applyReferral_fail_fast|].
       destruct Herr as [Herr|Herr]; [|by rewrite Herr].
       intros H200. unfold validation_errors in Herr.
       destruct (run db (applyReferral env rq)) as [db' r]. simpl in *.
       set_unfold in Herr.
       destruct Herr as [->|[->|[->|[->|[->|[]]]]]]; discriminate H200. }
  right. revert H200. unfold applyReferral, truthy_str.
  destruct (newUid rq) as [a|] eqn:Hn; [|simpl; intros [=]].
  destruct (String.eqb_spec a "") as [|Ha]; [simpl; intros [=]|].
  destruct (String.eqb_spec a (tokenUid rq)) as [Ht|]; [|simpl; intros [=]].
  destruct (usedReferralCode rq) as [code|] eqn:Hc; [|simpl; intros [=]].
  destruct (String.eqb_spec code "") as [|Hcode]; [simpl; intros [=]|].
  simpl.
  destruct (valid_path a) eqn:Hv; [|simpl; intros [=]].
  simpl.
  destruct (truthy_num (User.referralAppliedAt
              (default User.empty (users db !! a)))) eqn:Happ;
    [simpl; intros [=]|].
  simpl.
  destruct (query_by_code code db) as [[r ru]|] eqn:Hq; [|simpl; intros [=]].
  simpl. destruct (String.eqb_spec r a) as [|Hne]; [simpl; intros [=]|].
  intros _. exists a, code, r, ru.
  repeat split; done.
Qed.

(** X9: a redemption succeeds only for the caller's own account: when a
    request is answered 200 the body's [newUid] is the token's uid, the
    code is a non-empty one that resolves to another account, the caller
    had not redeemed before, and the audit record written under the new id
    names the caller as the redeemer and that other account as the
    referrer. *)
Theorem applyReferral_success_own_account (env : Env) (rq : ApplyReq) (db : Db) :
  status (run db (applyReferral env rq)).2 = 200 →
  newUid rq = Some (tokenUid rq)
  ∧ has_redeemed (tokenUid rq) db = false
  ∧ ∃ code r ru e,
      usedReferralCode rq = Some code ∧ code ≠ ""
      ∧ query_by_code code db = Some (r, ru) ∧ r ≠ tokenUid rq
      ∧ referrals (run db (applyReferral env rq)).1 !! referralId rq = Some e
      ∧ Referral.referredUid e = tokenUid rq
      ∧ Referral.referrerUid e = r
      ∧ Referral.referrerCode e = code.
Proof.
  intros H200.
  destruct (applyReferral_cases env rq db)
    as [[_ Herr]|(a & code & r & ru & Hn & Ht & Ha & Hv & Hc & Hcode & Happ & Hq & Hne & Hrun)].
  - destruct Herr as [Herr|E]; [|rewrite E in H200; discriminate].
    unfold validation_errors in Herr. set_unfold in Herr.
    destruct Herr as [E|[E|[E|[E|[E|[]]]]]]; rewrite E in H200; discriminate.
  - subst a. split; [done|]. split; [done|].
    eexists code, r, ru, _. rewrite Hrun. cbn [fst].
    rewrite commit_referrals, lookup_insert_eq. by repeat split.
Qed.

Lemma applyReferral_success_own_account_witness :
  newUid (ex_apply "bob" 1000 "r-1") = Some "bob"
  ∧ has_redeemed "bob" ex_db = false.
Proof.
  destruct (applyReferral_success_own_account ex_env (ex_apply "bob" 1000 "r-1") ex_db)
    as (H1 & H2 & _); [vm_compute; reflexivity|].
  exact (conj H1 H2).
Defined.


(** ** POST /applyReferral handled one request at a time *)



Lemma ledger_entries_for_same (a : string) (db db' : Db) :
  referrals db' = referrals db → ledger_entries_for a db' = ledger_entries_for a db.
Proof. unfold ledger_entries_for. by intros ->. Qed.





(** ** Invariants under any interleaving *)

Lemma all_writes_step {A} (P : list Write → Prop) (I : Db → Prop)
    (db : Db) (p : prog A) :
  (∀ ws d, P ws → I d → I (apply_updates ws d)) →
  all_writes P p → I db →
  I (step db p).1 ∧ all_writes P (step db p).2.
Proof.
  intros Hupd Hp Hi. destruct Hp; simpl; auto using all_writes.
Qed.

Lemma all_writes_interleave {A} (P : list Write → Prop) (I : Db → Prop)
    (sched : list nat) (db : Db) (ps : list (prog A)) :
  (∀ ws d, P ws → I d → I (apply_updates ws d)) →
  Forall (all_writes P) ps → I db →
  I (interleave sched db ps).1 ∧ Forall (all_writes P) (interleave sched db ps).2.
Proof.
  intros Hupd. revert db ps.
  induction sched as [|i sched IH]; intros db ps Hps Hi; simpl; [done|].
  destruct (ps !! i) as [p|] eqn:Hp; [|by apply IH].
  assert (all_writes P p) as Hpw by (by eapply Forall_lookup_1).
  destruct (all_writes_step P I db p Hupd Hpw Hi) as [Hi' Hp'].
  destruct (step db p) as [db1 p1]. simpl in *.
  apply IH; [|done]. by apply Forall_insert.
Qed.

Lemma sound_write_apply (w : Write) (db : Db) :
  sound_write w → sound_ledger db → sound_ledger (apply_write db w).
Proof.
  intros Hw Hs. destruct w; simpl; try exact Hs.
  intros id' r' Hl. simpl in Hl.
  apply lookup_insert_Some in Hl as [[<- <-]|[_ Hl]]; [exact Hw|by apply Hs].
Qed.

Lemma sound_writes_apply (ws : list Write) (db : Db) :
  Forall sound_write ws → sound_ledger db → sound_ledger (apply_updates ws db).
Proof.
  unfold apply_updates. revert db.
  induction ws as [|w ws IH]; intros db Hws Hs; simpl; [done|].
  apply Forall_cons in Hws as [Hw Hws]. apply IH; [done|].
  by apply sound_write_apply.
Qed.

(** Every handler only ever writes well-formed audit records. *)
Lemma handler_sound_writes (p : prog Response) :
  handler p → all_writes (Forall sound_write) p.
Proof.
  destruct 1 as [lib rq|code|env rq|Number_str limit|body].
  - unfold generateReferral.
    destruct (valid_path (gen_uid rq)); [|constructor]. simpl.
    constructor. intros [u|]; [destruct (User.referralCode u) as [c|]|];
      simpl; try destruct (negb _); repeat constructor.
  - unfold getReferral. constructor. intros [[k u]|]; constructor.
  - unfold applyReferral, truthy_str.
    destruct (newUid rq) as [a|]; [|constructor].
    destruct (String.eqb_spec a ""); [constructor|]. simpl.
    destruct (String.eqb a (tokenUid rq)); [|constructor]. simpl.
    destruct (usedReferralCode rq) as [code|]; [|constructor].
    destruct (String.eqb code ""); [constructor|]. simpl.
    destruct (valid_path a); [|constructor]. simpl.
    constructor. intros snap.
    destruct (truthy_num _); [constructor|]. simpl.
    constructor. intros [[r ru]|]; [|constructor]. simpl.
    destruct (String.eqb_spec r a) as [|Hne]; [constructor|].
    constructor. intros s. constructor; [|constructor].
    unfold referral_updates. repeat constructor. done.
  - unfold adminReferrals.
    destruct (Math_min_200 _) as [|z| | |]; try constructor.
    destruct (0 <? z); [|constructor]. constructor. intros l. constructor.
  - unfold adminSettings, settings_writes, settings_updates. simpl.
    constructor; [|constructor].
    destruct (Settings.referrerCoins body), (Settings.referredCoins body),
      (Settings.requireCompleteProfile body); repeat constructor.
Qed.

(** X12: whatever requests are in flight and however their awaited
    operations interleave, the handlers only ever put well-formed audit
    records into the ledger: each is stored under its own id, is marked
    awarded, and names a referrer different from the redeemer.  The races
    of overlapping redemptions can duplicate records but never produce a
    self-referral record. *)
Theorem interleave_sound_ledger
    (sched : list nat) (db : Db) (ps : list (prog Response)) :
  Forall handler ps → sound_ledger db →
  sound_ledger (interleave sched db ps).1.
Proof.
  intros Hps Hs.
  apply (all_writes_interleave (Forall sound_write) sound_ledger sched db ps);
    [apply sound_writes_apply| |done].
  eapply Forall_impl; [exact Hps|]. apply handler_sound_writes.
Qed.

Lemma interleave_sound_ledger_witness :
  sound_ledger (interleave ex_overlapped ex_db ex_same_account).1.
Proof.
  apply (interleave_sound_ledger ex_overlapped ex_db ex_same_account).
  - repeat constructor.
  - intros id r Hl. discriminate Hl.
Defined.

(** X13: the two reading routes never change the database, whatever else
    they are interleaved with among themselves: any pool of GET
    /referral/:code and GET /admin/referrals requests, under any schedule,
    leaves the database as it was. *)
Theorem readers_leave_database
    (sched : list nat) (db : Db) (ps : list (prog Response)) :
  Forall (λ p, (∃ code, p = getReferral code)
               ∨ ∃ Number_str limit, p = adminReferrals Number_str limit) ps →
  (interleave sched db ps).1 = db.
Proof.
  intros Hps.
  apply (all_writes_interleave (λ _, False) (λ d, d = db) sched db ps);
    [done| |done].
  eapply Forall_impl; [exact Hps|]. intros p [[code ->]|(N & limit & ->)].
  - unfold getReferral. constructor. intros [[k u]|]; constructor.
  - unfold adminReferrals.
    destruct (Math_min_200 _) as [|z| | |]; try constructor.
    destruct (0 <? z); [|constructor]. constructor. intros l. constructor.
Qed.

Lemma readers_leave_database_witness :
  (interleave ex_overlapped ex_db_ledger
     [getReferral "ALI-A1B2C3"; adminReferrals ex_Number None]).1 = ex_db_ledger.
Proof.
  apply (readers_leave_database ex_overlapped ex_db_ledger).
  constructor; [left; by eexists|].
  constructor; [right; by eexists _, _|]. constructor.
Defined.

(** ** Codes are stable under redemption *)

Lemma holder_code_of (code : string) (db : Db) (k : string) :
  (∃ u, holder code db k u) ↔ valid_key k = true ∧ code_of db k = Some code.
Proof.
  unfold holder, code_of. destruct (users db !! k) as [u|]; simpl.
  - split; [by intros (u' & ? & [= <-] & ?)|intros [? ?]; eauto].
  - split; [by intros (u' & ? & ? & _)|by intros [? ?]].
Qed.

(** The account a code resolves to depends only on which account stores
    which code. *)
Lemma query_by_code_ext (db db' : Db) (code : string) :
  (∀ k, code_of db' k = code_of db k) →
  fst <$> query_by_code code db' = fst <$> query_by_code code db.
Proof.
  intros Hsame.
  assert (Hh : ∀ k, (∃ u, holder code db' k u) ↔ (∃ u, holder code db k u)).
  { intros k. by rewrite !holder_code_of, Hsame. }
  destruct (query_by_code code db') as [[k1 u1]|] eqn:H1,
           (query_by_code code db) as [[k2 u2]|] eqn:H2; simpl; [|exfalso..|done].
  - apply query_by_code_iff in H1 as [Hh1 Hl1], H2 as [Hh2 Hl2].
    destruct (proj1 (Hh k1) (ex_intro _ u1 Hh1)) as [u1' Hh1'].
    destruct (proj2 (Hh k2) (ex_intro _ u2 Hh2)) as [u2' Hh2'].
    f_equal. apply (anti_symm key_le); eauto.
  - apply query_by_code_iff in H1 as [Hh1 _].
    destruct (proj1 (Hh k1) (ex_intro _ u1 Hh1)) as [u1' Hh1'].
    by apply (proj1 (query_by_code_None_iff code db) H2 k1 u1').
  - apply query_by_code_iff in H2 as [Hh2 _].
    destruct (proj2 (Hh k2) (ex_intro _ u2 Hh2)) as [u2' Hh2'].
    by apply (proj1 (query_by_code_None_iff code db') H1 k2 u2').
Qed.

Lemma applyReferral_keeps_codes (env : Env) (rq : ApplyReq) (db : Db) (k : string) :
  code_of (run db (applyReferral env rq)).1 k = code_of db k.
Proof.
  destruct (applyReferral_cases env rq db)
    as [[-> _]|(a & code & r & ru & _ & _ & _ & _ & _ & _ & _ & Hq & Hne & Hrun)];
    [done|].
  rewrite Hrun. cbn [fst]. unfold code_of.
  destruct (query_by_code_Some _ _ _ _ Hq) as [Hr _].
  destruct (decide (k = a)) as [->|Hka]; [|destruct (decide (k = r)) as [->|Hkr]].
  - rewrite commit_new_user by done. by destruct (users db !! a).
  - rewrite commit_referrer by done. by rewrite Hr.
  - by rewrite commit_other_user.
Qed.


(** ** Award amounts at the edges *)

(** The fallback chain of an award amount. *)
Lemma award_chain (env_default : option Z) (fallback n : Z) :
  award (Some 0) env_default fallback = award None env_default fallback
  ∧ award None env_default fallback = default fallback env_default
  ∧ (n ≠ 0 → award (Some n) env_default fallback = n).
Proof.
  unfold award, truthy_num. simpl. split; [done|]. split.
  - by destruct env_default.
  - intros Hn. apply Z.eqb_neq in Hn. by rewrite Hn.
Qed.

(** X15: an award of 0 cannot be configured.  After an admin stores
    [referrerCoins] 0 and [referredCoins] 0, the next redemption (a well
    formed one, of an account whose uid is a key the database admits)
    still awards the environment defaults, or 50 and 20 when those are
    unset: a stored 0 counts as unset. *)
Theorem zero_award_is_ignored
    (env : Env) (db0 : Db) (rq : ApplyReq) (a code r : string) (ru : User.t) :
  newUid rq = Some a → tokenUid rq = a → valid_key a = true →
  usedReferralCode rq = Some code → code ≠ "" →
  has_redeemed a db0 = false →
  query_by_code code db0 = Some (r, ru) → r ≠ a →
  let db1 := (run db0 (adminSettings (Settings.mk (Some 0) (Some 0) None))).1 in
  Settings.referrerCoins <$> settings db1 = Some (Some 0)
  ∧ (run db1 (applyReferral env rq)).2
    = json (BAwarded r (default 50 (DEFAULT_REFERRER_COINS env))
                       (default 20 (DEFAULT_REFERRED_COINS env))).
Proof.
  intros Hn Ht Ha Hc Hcode Happ Hq Hne db1.
  destruct (adminSettings_run (Settings.mk (Some 0) (Some 0) None) db0)
    as (db1' & Hrun & Hus & _ & Hs & Hset & _).
  assert (db1 = db1') as -> by (unfold db1; by rewrite Hrun).
  rewrite Hset by discriminate. split; [done|].
  rewrite (applyReferral_success env rq db1' a code r ru);
    auto using valid_key_nonempty, valid_key_path.
  - simpl. rewrite Hs. simpl.
    by destruct (DEFAULT_REFERRER_COINS env), (DEFAULT_REFERRED_COINS env).
  - unfold has_redeemed in Happ. by rewrite Hus.
  - unfold query_by_code. by rewrite Hus.
Qed.

Lemma zero_award_is_ignored_witness :
  (run (run ex_db (adminSettings (Settings.mk (Some 0) (Some 0) None))).1
       (applyReferral ex_env (ex_apply "bob" 1000 "r-1"))).2
  = json (BAwarded "alice" 50 20).
Proof.
  apply (zero_award_is_ignored ex_env ex_db (ex_apply "bob" 1000 "r-1")
           "bob" "ALI-A1B2C3" "alice" ex_alice);
    first [ discriminate | vm_compute; reflexivity ].
Defined.

(** ** POST /admin/settings/referral, repeated *)

(** X16: settings updates compose by last-writer-wins per field and
    never remove a field: sending the same body twice leaves the database
    as after the first time; after two updates each field holds the value
    of the later body that supplied it, else of the earlier, else the
    value stored before; and a field that was set stays set. *)
Theorem adminSettings_compose (body1 body2 : Settings.t) (db : Db) :
  let db1 := (run db (adminSettings body1)).1 in
  let db2 := (run db1 (adminSettings body2)).1 in
  (run db1 (adminSettings body1)).1 = db1
  ∧ default Settings.empty (settings db2)
    = merged_settings (Some (merged_settings (settings db) body1)) body2
  ∧ (is_Some (Settings.referrerCoins (default Settings.empty (settings db))) →
     is_Some (Settings.referrerCoins (default Settings.empty (settings db1))))
  ∧ (is_Some (Settings.referredCoins (default Settings.empty (settings db))) →
     is_Some (Settings.referredCoins (default Settings.empty (settings db1))))
  ∧ (is_Some (Settings.requireCompleteProfile (default Settings.empty (settings db))) →
     is_Some (Settings.requireCompleteProfile (default Settings.empty (settings db1)))).
Proof.
  destruct body1 as [[c1|] [c2|] [b|]], db as [us rs [[o1 o2 o3]|]];
    (split; [reflexivity|split;
       [destruct body2 as [[d1|] [d2|] [b2|]]; reflexivity|]]);
    simpl; repeat split; intros; eauto.
Qed.

Lemma adminSettings_compose_witness :
  is_Some (Settings.referredCoins
             (default Settings.empty
                (settings (run ex_db_settings (adminSettings ex_body_10)).1))).
Proof.
  apply (adminSettings_compose ex_body_10 ex_body_10 ex_db_settings).
  by eexists.
Defined.

(** ** POST /generateReferral: the stored code *)

Lemma generateReferral_run_fresh
    (lib : StringLib) (rq : GenerateReq) (db : Db) :
  valid_path (gen_uid rq) = true →
  truthy_str (User.referralCode (default User.empty (users db !! gen_uid rq))) = false →
  let newCode := makeReferralCode lib (gen_uid rq) (gen_codeTime rq) in
  let db' := (run db (generateReferral lib rq)).1 in
  (run db (generateReferral lib rq)).2 = json (BReferralCode newCode)
  ∧ users db' !! gen_uid rq
    = Some (User.set_updatedAt (gen_updateTime rq)
              (User.set_referralCode newCode
                 (default User.empty (users db !! gen_uid rq))))
  ∧ (∀ k, k ≠ gen_uid rq → users db' !! k = users db !! k)
  ∧ referrals db' = referrals db
  ∧ settings db' = settings db.
Proof.
  intros Hv Hf newCode db'.
  destruct (generateReferral_fresh lib rq db Hv Hf) as (Hrun & _ & _).
  unfold db'. rewrite Hrun. cbn [fst snd].
  unfold apply_updates, upd_user. simpl.
  split; [done|]. split; [|split; [|done]].
  - rewrite !lookup_insert. repeat (case_decide; try congruence). done.
  - intros k Hk. rewrite !lookup_insert. repeat (case_decide; try congruence).
Qed.

(** X17: a generated code can be looked up at once.  When the account
    (its uid a key the database admits) stores no code yet and no other
    account holds the code that is generated, then POST /generateReferral
    answers with that code, after it the code resolves to the caller, GET
    /referral/:code shows the caller's uid, and the request has changed
    nothing but the caller's [referralCode] and [updatedAt]: its coins,
    the other accounts, the ledger and the settings are as before.  A
    uid the database refuses in a path gets no answer and nothing is
    stored. *)
Theorem generateReferral_then_lookup
    (lib : StringLib) (rq : GenerateReq) (db : Db) :
  let newCode := makeReferralCode lib (gen_uid rq) (gen_codeTime rq) in
  let db' := (run db (generateReferral lib rq)).1 in
  (valid_key (gen_uid rq) = true →
   truthy_str (User.referralCode (default User.empty (users db !! gen_uid rq))) = false →
   (∀ k u, holder newCode db k u → k = gen_uid rq) →
   (run db (generateReferral lib rq)).2 = json (BReferralCode newCode)
   ∧ (∃ u', query_by_code newCode db' = Some (gen_uid rq, u')
          ∧ (run db' (getReferral newCode)).2
            = json (BReferralInfo (gen_uid rq) (str_or_null (User.displayName u'))))
   ∧ balance (gen_uid rq) db' = balance (gen_uid rq) db
   ∧ (∀ k, k ≠ gen_uid rq → users db' !! k = users db !! k)
   ∧ referrals db' = referrals db
   ∧ settings db' = settings db)
  ∧ (valid_path (gen_uid rq) = false →
     run db (generateReferral lib rq) = (db, unanswered)).
Proof.
  intros newCode db'. split.
  - intros Hvk Hf Hsole. pose proof (valid_key_path _ Hvk) as Hv.
    destruct (generateReferral_run_fresh lib rq db Hv Hf)
      as (Hresp & Hu & Hothers & Hrs & Hs).
    fold db' in Hu, Hothers, Hrs, Hs. fold newCode in Hu, Hresp.
    split; [exact Hresp|]. split; [|split; [|done]].
    + set (u1 := User.set_updatedAt (gen_updateTime rq)
                   (User.set_referralCode newCode
                      (default User.empty (users db !! gen_uid rq)))) in Hu.
      exists u1.
      assert (query_by_code newCode db' = Some (gen_uid rq, u1)) as Hq.
      { apply query_by_code_sole_holder; [by repeat split|].
        intros k u' (Hvk' & Hk & Hc).
        destruct (decide (k = gen_uid rq)) as [|Hne]; [done|].
        rewrite Hothers in Hk by done. by apply (Hsole k u'). }
      split; [exact Hq|]. unfold getReferral. simpl. by rewrite Hq.
    + unfold balance. rewrite Hu. done.
  - intros Hv. by rewrite generateReferral_invalid.
Qed.

Lemma generateReferral_then_lookup_witness :
  (run ex_db (generateReferral ex_lib ex_generate_1)).2
  = json (BReferralCode "U1X-A1B2C3")
  ∧ (∃ u', query_by_code "U1X-A1B2C3"
             (run ex_db (generateReferral ex_lib ex_generate_1)).1
           = Some ("u1xyz", u'))
  ∧ run ex_db (generateReferral ex_lib (mkGenerateReq "a.b" 1000 1001))
    = (ex_db, unanswered).
Proof.
  split; [|split].
  - destruct (proj1 (generateReferral_then_lookup ex_lib ex_generate_1 ex_db))
      as (Hresp & _).
    + reflexivity.
    + reflexivity.
    + intros k u (_ & Hu & Hc). unfold ex_db in Hu. simpl in Hu.
      apply lookup_singleton_Some in Hu as [_ <-]. discriminate Hc.
    + exact Hresp.
  - destruct (proj1 (generateReferral_then_lookup ex_lib ex_generate_1 ex_db))
      as (_ & (u' & Hq & _) & _).
    + reflexivity.
    + reflexivity.
    + intros k u (_ & Hu & Hc). unfold ex_db in Hu. simpl in Hu.
      apply lookup_singleton_Some in Hu as [_ <-]. discriminate Hc.
    + exists u'. exact Hq.
  - apply (proj2 (generateReferral_then_lookup ex_lib
                    (mkGenerateReq "a.b" 1000 1001) ex_db)).
    reflexivity.
Defined.

(** X18: the handler does not check that a generated code is free.  When
    another account, whose uid comes before the caller's in the
    database's key order, already holds the code that is generated, the
    caller (its uid a key the database admits) is still answered with
    that code and stores it, but the code keeps resolving to the other
    account. *)
Theorem generateReferral_collision
    (lib : StringLib) (rq : GenerateReq) (db : Db)
    (k : string) (u : User.t) :
  valid_key (gen_uid rq) = true →
  truthy_str (User.referralCode (default User.empty (users db !! gen_uid rq))) = false →
  let newCode := makeReferralCode lib (gen_uid rq) (gen_codeTime rq) in
  let db' := (run db (generateReferral lib rq)).1 in
  query_by_code newCode db = Some (k, u) →
  key_le k (gen_uid rq) →
  (run db (generateReferral lib rq)).2 = json (BReferralCode newCode)
  ∧ code_of db' (gen_uid rq) = Some newCode
  ∧ k ≠ gen_uid rq
  ∧ query_by_code newCode db' = Some (k, u).
Proof.
  intros Hvk Hf newCode db' Hq Hle. pose proof (valid_key_path _ Hvk) as Hv.
  destruct (generateReferral_run_fresh lib rq db Hv Hf)
    as (Hresp & Hu & Hothers & _ & _).
  fold db' in Hu, Hothers. fold newCode in Hu, Hresp.
  apply query_by_code_iff in Hq as [(Hkv & Hk & Hc) Hleast].
  assert (k ≠ gen_uid rq) as Hne.
  { intros ->. rewrite Hk in Hf. simpl in Hf. rewrite Hc in Hf.
    unfold newCode in Hf. by rewrite makeReferralCode_truthy in Hf. }
  split; [done|]. split; [unfold code_of; by rewrite Hu|]. split; [done|].
  apply query_by_code_iff. split.
  - split; [done|]. split; [by rewrite Hothers|done].
  - intros k' u' (Hkv' & Hk' & Hc').
    destruct (decide (k' = gen_uid rq)) as [->|Hne']; [done|].
    rewrite Hothers in Hk' by done. apply (Hleast k' u'). by repeat split.
Qed.

Lemma generateReferral_collision_witness :
  (run ex_db_collision (generateReferral ex_lib (mkGenerateReq "10abc" 1000 1001))).2
  = json (BReferralCode "10A-A1B2C3")
  ∧ fst <$> query_by_code "10A-A1B2C3"
              (run ex_db_collision
                 (generateReferral ex_lib (mkGenerateReq "10abc" 1000 1001))).1
    = Some "7".
Proof.
  destruct (generateReferral_collision ex_lib (mkGenerateReq "10abc" 1000 1001)
              ex_db_collision "7"
              (User.mk (Some "10A-A1B2C3") None None None None None))
    as (H1 & _ & _ & H2);
    [reflexivity|reflexivity|vm_compute; reflexivity|reflexivity|].
  split; [exact H1|]. exact (f_equal (fmap fst) H2).
Defined.



(** ** GET /admin/referrals: the newest record *)

(** X20: a listing that succeeds always contains the newest audit record:
    if one stored record has a [createdAt] greater than every other, any
    answer with data holds that record under its id, whatever limit was
    asked for. *)
Theorem adminReferrals_lists_newest
    (Number_str : string → jsnum) (limit : option string) (db : Db)
    (id : string) (e : Referral.t) (data : gmap string Referral.t) :
  referrals db !! id = Some e →
  (∀ id' e', referrals db !! id' = Some e' → id' ≠ id →
             Referral.createdAt e' < Referral.createdAt e) →
  (run db (adminReferrals Number_str limit)).2 = json (BData data) →
  data !! id = Some e.
Proof.
  intros He Hmax. unfold adminReferrals.
  destruct (Math_min_200 _) as [|z| | |]; try discriminate.
  destruct (Z.ltb_spec 0 z) as [Hz|]; [|discriminate].
  simpl. intros [= <-].
  destruct (query_recent_spec (Z.to_nat z) db) as (Hlen & Hnd & Hsub & Hrec).
  set (l := query_recent (Z.to_nat z) db) in *.
  destruct (list_to_map l !! id) as [e1|] eqn:Hl.
  - apply elem_of_list_to_map in Hl; [|done]. apply Hsub in Hl. congruence.
  - exfalso. apply not_elem_of_list_to_map in Hl.
    assert ((id, e) ∉ l) as Hout.
    { intros Hin. apply Hl. apply list_elem_of_fmap. by exists (id, e). }
    assert (size (referrals db) ≠ 0%nat) as Hsz.
    { intros E. apply map_size_empty_inv in E. rewrite E in He. done. }
    destruct l as [|[id0 e0] l'] eqn:El; [simpl in Hlen; lia|].
    assert ((id0, e0) ∈ (id0, e0) :: l') as Hin0 by apply list_elem_of_here.
    pose proof (Hrec id0 e0 id e Hin0 He Hout) as Hle.
    pose proof (Hsub id0 e0 Hin0) as He0.
    assert (id0 ≠ id) as Hne.
    { intros ->. apply Hout. assert (e0 = e) as -> by congruence. done. }
    pose proof (Hmax id0 e0 He0 Hne). lia.
Qed.

Lemma adminReferrals_lists_newest_witness :
  (list_to_map (query_recent 200 ex_db_ledger) : gmap string Referral.t) !! "b2"
  = Some ex_newer.
Proof.
  apply (adminReferrals_lists_newest ex_Number (Some "500") ex_db_ledger "b2"
           ex_newer (list_to_map (query_recent 200 ex_db_ledger)));
    [reflexivity| |reflexivity].
  intros id' e' He' Hne. unfold ex_db_ledger in He'. simpl in He'.
  apply lookup_insert_Some in He' as [[<- <-]|[_ He']]; [reflexivity|].
  apply lookup_singleton_Some in He' as [<- _]. by destruct Hne.
Defined.

(** ** POST /applyReferral: one write, and referral rings *)

Local Ltac error_leaf :=
  simpl; split; [intros [=]|];
  (split; [done|]); right;
  first [ right; reflexivity
        | left; repeat first [ apply list_elem_of_here | apply list_elem_of_further ] ].

(** X21: a redemption is committed by a single [update] call or not at
    all: a request handled alone issues exactly one write, carrying all
    seven child assignments, when it is answered 200, and no write
    otherwise, the database being then left as it was.  It is answered
    200, or with one of the five validation errors, or, when the uid is
    one the database refuses in a path, with 500. *)
Theorem applyReferral_single_write (env : Env) (rq : ApplyReq) (db : Db) :
  (status (run db (applyReferral env rq)).2 = 200 →
   ∃ ws, writes db (applyReferral env rq) = [ws] ∧ length ws = 7%nat
         ∧ (run db (applyReferral env rq)).1 = apply_updates ws db)
  ∧ (status (run db (applyReferral env rq)).2 ≠ 200 →
     writes db (applyReferral env rq) = []
     ∧ (run db (applyReferral env rq)).1 = db)
  ∧ (status (run db (applyReferral env rq)).2 = 200
     ∨ (run db (applyReferral env rq)).2 ∈ validation_errors
     ∨ (run db (applyReferral env rq)).2 = fail 500 "Internal error applying referral").
Proof.
  unfold applyReferral, truthy_str, validation_errors.
  destruct (newUid rq) as [a|]; [|error_leaf].
  destruct (String.eqb a ""); [error_leaf|]. simpl.
  destruct (String.eqb a (tokenUid rq)); [|error_leaf]. simpl.
  destruct (usedReferralCode rq) as [code|]; [|error_leaf].
  destruct (String.eqb code ""); [error_leaf|]. simpl.
  destruct (valid_path a); [|error_leaf]. simpl.
  destruct (truthy_num _); [error_leaf|]. simpl.
  destruct (query_by_code code db) as [[r ru]|]; [|error_leaf].
  simpl. destruct (String.eqb r a); [error_leaf|].
  simpl. split; [|split; [by intros []|by left]].
  intros _. eexists. split; [reflexivity|]. done.
Qed.



(** X22: referral rings are allowed.  After account [a] has redeemed the
    code of account [r], account [r], if it has not redeemed a code
    itself, can redeem a code of [a]: the second request is answered 200
    with [a] as the referrer. *)
Theorem applyReferral_mutual
    (env : Env) (rq1 rq2 : ApplyReq) (db : Db)
    (a r code_r code_a : string) (ru au : User.t) :
  newUid rq1 = Some a → tokenUid rq1 = a → a ≠ "" →
  usedReferralCode rq1 = Some code_r → code_r ≠ "" →
  has_redeemed a db = false →
  query_by_code code_r db = Some (r, ru) → r ≠ a →
  newUid rq2 = Some r → tokenUid rq2 = r → r ≠ "" →
  usedReferralCode rq2 = Some code_a → code_a ≠ "" →
  has_redeemed r db = false →
  query_by_code code_a db = Some (a, au) →
  let db1 := (run db (applyReferral env rq1)).1 in
  ∃ c1 c2 c1' c2',
    (run db (applyReferral env rq1)).2 = json (BAwarded r c1 c2)
    ∧ (run db1 (applyReferral env rq2)).2 = json (BAwarded a c1' c2').
Proof.
  intros Hn Ht Ha Hc Hcode Happ Hq Hne Hn2 Ht2 Hr Hc2 Hcode2 Happ2 Hq2 db1.
  pose proof (valid_key_path _ (query_by_code_valid _ _ _ _ Hq2)) as Hva.
  pose proof (valid_key_path _ (query_by_code_valid _ _ _ _ Hq)) as Hvr.
  pose proof (applyReferral_success env rq1 db a code_r r ru
                Hn Ht Ha Hva Hc Hcode Happ Hq Hne) as Hrun1.
  cbv zeta in Hrun1.
  assert (fst <$> query_by_code code_a db1 = Some a) as Hq2'.
  { unfold db1. rewrite (query_by_code_ext db); [by rewrite Hq2|].
    apply applyReferral_keeps_codes. }
  destruct (query_by_code code_a db1) as [[a' au']|] eqn:Hq2''; [|discriminate].
  injection Hq2' as ->.
  assert (has_redeemed r db1 = false) as Happ2'.
  { unfold db1, has_redeemed. rewrite Hrun1. cbn [fst].
    rewrite commit_referrer by done.
    destruct (query_by_code_Some _ _ _ _ Hq) as [Hru _].
    unfold has_redeemed in Happ2. rewrite Hru in *. done. }
  eexists _, _, _, _. split; [by rewrite Hrun1|].
  rewrite (applyReferral_success env rq2 db1 r code_a a au'); done.
Qed.

Lemma applyReferral_mutual_witness :
  ∃ c1 c2 c1' c2',
    (run ex_db_pair
       (applyReferral ex_env (mkApplyReq "zoe" (Some "zoe") (Some "ALI-A1B2C3") 1000 "r-1"))).2
    = json (BAwarded "alice" c1 c2)
    ∧ (run (run ex_db_pair
              (applyReferral ex_env
                 (mkApplyReq "zoe" (Some "zoe") (Some "ALI-A1B2C3") 1000 "r-1"))).1
           (applyReferral ex_env
              (mkApplyReq "alice" (Some "alice") (Some "ZOE-0F0F0F") 1001 "r-2"))).2
      = json (BAwarded "zoe" c1' c2').
Proof.
  apply (applyReferral_mutual ex_env
           (mkApplyReq "zoe" (Some "zoe") (Some "ALI-A1B2C3") 1000 "r-1")
           (mkApplyReq "alice" (Some "alice") (Some "ZOE-0F0F0F") 1001 "r-2")
           ex_db_pair "zoe" "alice" "ALI-A1B2C3" "ZOE-0F0F0F" ex_alice ex_zoe);
    first [ discriminate | vm_compute; reflexivity ].
Defined.

(** ** What no handler undoes *)





(** ** Further instances *)

Lemma applyReferral_second_call_witness :
  run ex_db_redeemed
      (applyReferral ex_env (mkApplyReq "alice" (Some "alice") (Some "ZED-0F0F0F") 1001 "r-2"))
  = (ex_db_redeemed, fail 409 "Referral already applied").
Proof.
  apply (applyReferral_second_call ex_env
           (mkApplyReq "alice" (Some "alice") (Some "ZED-0F0F0F") 1001 "r-2")
           ex_db_redeemed "alice" "ZED-0F0F0F");
    first [ discriminate | reflexivity ].
Defined.




Lemma applyReferral_single_write_witness :
  ∃ ws, writes ex_db (applyReferral ex_env (ex_apply "bob" 1000 "r-1")) = [ws]
        ∧ length ws = 7%nat.
Proof.
  destruct (applyReferral_single_write ex_env (ex_apply "bob" 1000 "r-1") ex_db)
    as [H200 _].
  destruct (H200 eq_refl) as (ws & Hw & Hlen & _).
  exists ws. exact (conj Hw Hlen).
Defined.
